(** * chessEval: the photographed-board pipelines

    A shallow embedding of the position post-processing code
    ([netlify/functions/board-to-fen.js], [src/app.js]) and of the
    bleed-removal image filter ([src/app.js]), with the properties the
    specification states about them.

    Conventions.
    - A JavaScript string is a [string]; an array of strings is a
      [list string]; [a[i]] is the list lookup [a !! i], where [None]
      stands for [undefined].
    - A JavaScript number is a rational ([Q]) wherever the code computes
      with fractions, and an integer ([Z]) where it holds an index.  The
      values compared in the orientation heuristic are half-integers and
      quotients of small counts, which binary64 separates from the
      thresholds 1.5 and 0.65 the way exact arithmetic does; the rounding
      of the image filter's intermediate values is not modelled.
    - A thrown exception is the [Throw] branch of [result]. *)

From Stdlib Require Import Ascii String ZArith QArith Qround Qminmax Lia Lqa Permutation.
From stdpp Require Import base list strings gmap.

(** ** JavaScript primitives used by the code *)

Module JS.

(** [s.split(sep)] with a one-character separator: never empty. *)
Fixpoint split (sep : ascii) (s : string) : list string :=
  match s with
  | EmptyString => [EmptyString]
  | String c r =>
      if Ascii.eqb c sep then EmptyString :: split sep r
      else match split sep r with
           | h :: t => String c h :: t
           | [] => [String c EmptyString]
           end
  end.

(** [a.join(sep)] *)
Fixpoint join (sep : string) (a : list string) : string :=
  match a with
  | [] => EmptyString
  | x :: r =>
      match r with
      | [] => x
      | _ :: _ => x +:+ sep +:+ join sep r
      end
  end.

(** [s.includes(c)] with a one-character needle. *)
Fixpoint includes (c : ascii) (s : string) : bool :=
  match s with
  | EmptyString => false
  | String d r => Ascii.eqb d c || includes c r
  end.

(** [s[i]] *)
Fixpoint charAt (s : string) (i : nat) : option ascii :=
  match s, i with
  | EmptyString, _ => None
  | String c _, O => Some c
  | String _ r, S j => charAt r j
  end.

(** [c.repeat(n)] for a one-character string. *)
Fixpoint repeat (c : ascii) (n : nat) : string :=
  match n with
  | O => EmptyString
  | S k => String c (repeat c k)
  end.

(** [a.findIndex(p)]: the first index whose element satisfies [p],
    [-1] when there is none. *)
Fixpoint findIndexFrom {A} (p : A -> bool) (i : Z) (a : list A) : Z :=
  match a with
  | [] => (-1)%Z
  | x :: r => if p x then i else findIndexFrom p (i + 1)%Z r
  end.

Definition findIndex {A} (p : A -> bool) (a : list A) : Z :=
  findIndexFrom p 0%Z a.

(** [a[i] = v].  Writing past the end lengthens the array; the holes
    this leaves are rendered as empty strings by [join], the only use
    the code makes of the array afterwards. *)
Definition arraySet (a : list string) (i : nat) (v : string) : list string :=
  if (i <? length a)%nat then <[i:=v]> a
  else a ++ replicate (i - length a) EmptyString ++ [v].

(** The character classes of the regular expressions in the code. *)
Definition isDigit (c : ascii) : bool :=
  let n := nat_of_ascii c in (48 <=? n)%nat && (n <=? 57)%nat.
Definition isUpper (c : ascii) : bool :=
  let n := nat_of_ascii c in (65 <=? n)%nat && (n <=? 90)%nat.
Definition isLower (c : ascii) : bool :=
  let n := nat_of_ascii c in (97 <=? n)%nat && (n <=? 122)%nat.

(** [parseInt(d, 10)] on a one-digit string. *)
Definition digitValue (c : ascii) : nat := nat_of_ascii c - 48.

(** [(s.match(re) || []).length] for a global one-character class. *)
Fixpoint countMatches (cls : ascii -> bool) (s : string) : nat :=
  match s with
  | EmptyString => 0
  | String c r => (if cls c then 1 else 0) + countMatches cls r
  end.

Inductive error :=
| TypeError
| Error (message : string).

Inductive result (A : Type) :=
| Ok (a : A)
| Throw (e : error).
Arguments Ok {A} a.
Arguments Throw {A} e.

End JS.

Import JS.

(** ** The server function: completion and castling inference
    ([netlify/functions/board-to-fen.js]) *)

Module Server.

(** [if (fen.split(' ').length < 6) fen += ' w - - 0 1'] *)
Definition complete (fen : string) : string :=
  if (length (split " " fen) <? 6)%nat then fen +:+ " w - - 0 1" else fen.

(** [expand = s => s.replace(/\d/g, d => '1'.repeat(parseInt(d, 10)))] *)
Fixpoint expand (s : string) : string :=
  match s with
  | EmptyString => EmptyString
  | String c r =>
      if isDigit c then JS.repeat "1" (digitValue c) +:+ expand r
      else String c (expand r)
  end.

(** Lines 49-57: the letters appended to [castling], one conditional
    at a time. *)
Definition castlingOf (r1 r8 : string) : string :=
  let castling := "" in
  let castling :=
    if decide (charAt r1 4 = Some "K"%char) then
      let castling :=
        if decide (charAt r1 7 = Some "R"%char) then castling +:+ "K" else castling in
      if decide (charAt r1 0 = Some "R"%char) then castling +:+ "Q" else castling
    else castling in
  if decide (charAt r8 4 = Some "k"%char) then
    let castling :=
      if decide (charAt r8 7 = Some "r"%char) then castling +:+ "k" else castling in
    if decide (charAt r8 0 = Some "r"%char) then castling +:+ "q" else castling
  else castling.

(** Lines 43-59 of the handler.  [expand(undefined)] throws. *)
Definition inferCastling (fen : string) : result string :=
  let fenParts := split " " fen in
  match fenParts !! 0 with
  | None => Throw TypeError
  | Some placement =>
      let ranks := split "/" placement in
      match ranks !! 0, ranks !! 7 with
      | Some rank8, Some rank1 =>
          let r8 := expand rank8 in
          let r1 := expand rank1 in
          let castling := castlingOf r1 r8 in
          let field := if decide (castling = "") then "-" else castling in
          Ok (join " " (arraySet fenParts 2 field))
      | _, _ => Throw TypeError
      end
  end.

(** What the handler does to the recogniser's string (lines 38-59). *)
Definition postProcess (raw : string) : result string :=
  inferCastling (complete raw).

(** The answers of the handler this development distinguishes. *)
Inductive response :=
| Status200 (fen : string)
| Status422
| Status500 (e : error).

(** The handler from line 32 on; [fen] is [result.results?.[0]?.fen],
    [None] when the recogniser reports nothing.  An exception inside the
    [try] block becomes the answer 500. *)
Definition handler (fen : option string) : response :=
  match fen with
  | None => Status422
  | Some fen =>
      if decide (fen = "") then Status422
      else match postProcess fen with
           | Ok fen => Status200 fen
           | Throw e => Status500 e
           end
  end.

End Server.

Import Server.

(** ** The rotation transform *)

Module Rotation.

Fixpoint reverseString (s : string) : string :=
  match s with
  | EmptyString => EmptyString
  | String c r => reverseString r +:+ String c EmptyString
  end.

(** Modelled from the spec: the placement part of [rotateFen], exported
    by [src/utils/fen.js], which is not among the sources.  The spec:
    reverse the order of the 8 rows and reverse the square order within
    each row. *)
Definition rotatePlacement (p : string) : string :=
  join "/" (reverse (map reverseString (split "/" p))).

(** Modelled from the spec: [rotateFen] of [src/utils/fen.js], which is
    not among the sources.  The spec: rotation is a pure geometric
    transform on the placement; the active colour is a separate toggle
    that the one-argument calls of the code do not request, so the other
    fields are kept. *)
Definition rotateFen (fen : string) : string :=
  match split " " fen with
  | p :: rest => join " " (rotatePlacement p :: rest)
  | [] => fen
  end.

End Rotation.

Import Rotation.

(** ** The client: orientation detection and position loading
    ([src/app.js]) *)

Module Client.

Definition Qgtb (x y : Q) : bool := negb (Qle_bool x y).

(** [fen.split(' ')[0].split('/')]; [split] never returns an empty
    array, so element 0 is always there. *)
Definition rowsOf (fen : string) : list string :=
  match split " " fen with
  | p :: _ => split "/" p
  | [] => []
  end.

(** [n || 1] on a count. *)
Definition orOne (n : nat) : nat := if (n =? 0)%nat then 1 else n.

(** A count as a number. *)
Definition ofNat (n : nat) : Q := inject_Z (Z.of_nat n).

(** The value of [isFlipped] when [detectOrientation] returns. *)
Definition isFlipped (fen : string) : bool :=
  let rows := rowsOf fen in
  let whiteKingRow := findIndex (includes "K") rows in
  let blackKingRow := findIndex (includes "k") rows in
  if negb (whiteKingRow =? -1)%Z || negb (blackKingRow =? -1)%Z then
    let score := 0%Q in
    let score :=
      if negb (whiteKingRow =? -1)%Z
      then (score + ((7 # 2) - inject_Z whiteKingRow))%Q else score in
    let score :=
      if negb (blackKingRow =? -1)%Z
      then (score + (inject_Z blackKingRow - (7 # 2)))%Q else score in
    Qgtb score (3 # 2)
  else
    let top := join "" (take 4 rows) in
    let bottom := join "" (drop 4 rows) in
    let wTop := countMatches isUpper top in
    let bTop := countMatches isLower top in
    let wBot := countMatches isUpper bottom in
    let bBot := countMatches isLower bottom in
    Qgtb (ofNat wTop / ofNat (orOne (wTop + bTop))) (65 # 100) &&
    Qgtb (ofNat bBot / ofNat (orOne (wBot + bBot))) (65 # 100).

Definition detectOrientation (fen : string) : string :=
  if isFlipped fen then rotateFen fen else fen.

(** The string [loadPosition] hands to [this.chess.load] (line 333 is
    the completion statement of the handler once more).  Whether the rules
    engine accepts the string is not modelled: [loadPosition] catches its
    exception and reports Invalid FEN. *)
Definition loadPosition (fen : string) : string := complete fen.

(** [handleImageUpload], from the recogniser's answer on (lines 360-375):
    the string the server returns goes through [detectOrientation] and
    [loadPosition]; [Ok] carries the string handed to the rules engine,
    [Throw] is an error raised before [loadPosition] is reached. *)
Definition handleImageUpload (recognised : option string) : result string :=
  match handler recognised with
  | Status200 fen =>
      if decide (fen = "") then Throw (Error "No FEN returned")
      else
        let fen := detectOrientation fen in
        Ok (loadPosition fen)
  | Status422 => Throw (Error "Server error")
  | Status500 _ => Throw (Error "Server error")
  end.

End Client.

Import Client.

(** ** The bleed-removal filter ([src/app.js]) *)

Module Filter.

Record ImageData := { data : list Z; width : nat; height : nat }.

(** [a[i]] on a numeric array.  Every read the code makes is in range
    when [data] holds four entries per pixel. *)
Definition getQ (a : list Q) (i : Z) : Q := nth (Z.to_nat i) a 0%Q.
Definition getZ (a : list Z) (i : nat) : Z := nth i a 0%Z.

(** The values of a counting loop [for (k = lo; k <= hi; k++)]. *)
Definition range (lo hi : Z) : list Z :=
  map (fun i => (lo + Z.of_nat i)%Z) (seq 0 (Z.to_nat (hi - lo + 1))).

(** [Math.round]: the nearest integer, halves upwards. *)
Definition round (x : Q) : Z := Qfloor (x + (1 # 2)).

(** A store into a [Uint8ClampedArray]. *)
Definition toUint8Clamp (v : Z) : Z := Z.min 255 (Z.max 0 v).

(** Lines 514-515: one entry of [norm]. *)
Definition normPixel (gray bg : Q) : Q :=
  let blendFactor := (1 # 2)%Q in
  let normalizedValue := (((gray + 1) / (bg + 1)) * 255)%Q in
  Qmin 255 (Qmax 0 (normalizedValue * blendFactor + gray * (1 - blendFactor))).

Section WithExp.

(** [Math.exp] *)
Variable exp : Q -> Q.

(** The kernel of lines 462-471, for a positive [sigma] (the filter
    passes 25 and 2); at [sigma] 0 the code divides 0 by 0, which these
    numbers do not have. *)
Definition kernelOf (sigma : Q) : list Q :=
  let radius := Qceiling (3 * sigma) in
  let size := (2 * radius + 1)%Z in
  let kernel :=
    map (fun i => let x := inject_Z (i - radius) in
                  exp (- (x * x) / (2 * sigma * sigma)))
        (range 0 (size - 1)) in
  let ksum := fold_left Qplus kernel 0%Q in
  map (fun w => (w / ksum)%Q) kernel.

Definition _gaussianBlur (src : list Q) (width height : nat) (sigma : Q) : list Q :=
  let radius := Qceiling (3 * sigma) in
  let kernel := kernelOf sigma in
  let w := Z.of_nat width in
  let h := Z.of_nat height in
  let tmp :=
    flat_map (fun y =>
      let row := (y * w)%Z in
      map (fun x =>
             fold_left (fun acc k =>
                          (acc + getQ src (row + Z.min (Z.max (x + k) 0) (w - 1))
                                 * getQ kernel (k + radius))%Q)
                       (range (- radius) radius) 0%Q)
          (range 0 (w - 1)))
      (range 0 (h - 1)) in
  flat_map (fun y =>
    map (fun x =>
           fold_left (fun acc k =>
                        (acc + getQ tmp (Z.min (Z.max (y + k) 0) (h - 1) * w + x)
                               * getQ kernel (k + radius))%Q)
                     (range (- radius) radius) 0%Q)
        (range 0 (w - 1)))
    (range 0 (h - 1)).

Definition grayOf (img : ImageData) : list Q :=
  map (fun i =>
         ((299 # 1000) * inject_Z (getZ (data img) (i * 4))
          + (587 # 1000) * inject_Z (getZ (data img) (i * 4 + 1))
          + (114 # 1000) * inject_Z (getZ (data img) (i * 4 + 2)))%Q)
      (seq 0 (width img * height img)).

Definition normOf (img : ImageData) : list Q :=
  let gray := grayOf img in
  let bg := _gaussianBlur gray (width img) (height img) 25 in
  map (fun i => normPixel (getQ gray (Z.of_nat i)) (getQ bg (Z.of_nat i)))
      (seq 0 (width img * height img)).

Definition removeBleeding (img : ImageData) : ImageData :=
  let n := width img * height img in
  let denoised := _gaussianBlur (normOf img) (width img) (height img) 2 in
  let out :=
    flat_map (fun i =>
                let v := round (getQ denoised (Z.of_nat i)) in
                [toUint8Clamp v; toUint8Clamp v; toUint8Clamp v; toUint8Clamp 255])
             (seq 0 n) in
  {| data := out; width := width img; height := height img |}.

End WithExp.

End Filter.

(** ** Boards: what a placement string denotes *)

Module Board.

(** A square is empty or holds a piece letter. *)
Definition square := option ascii.

(** The squares of one rank, file a first: a digit stands for that many
    empty squares. *)
Fixpoint squares (rank : string) : list square :=
  match rank with
  | EmptyString => []
  | String c r =>
      if isDigit c then replicate (digitValue c) None ++ squares r
      else Some c :: squares r
  end.

Definition board (placement : string) : list (list square) :=
  map squares (split "/" placement).

(** The content of a square, rows and files counted from 0; [None]
    off the board or on an empty square. *)
Definition pieceAt (b : list (list square)) (row file : nat) : option ascii :=
  match b !! row with
  | Some r => match r !! file with Some sq => sq | None => None end
  | None => None
  end.

(** The piece letters of a board, row by row. *)
Definition pieces (b : list (list square)) : list ascii :=
  omap id (concat b).

Definition isPieceLetter (c : ascii) : bool :=
  includes c "pnbrqkPNBRQK".

Fixpoint chars (s : string) : list ascii :=
  match s with
  | EmptyString => []
  | String c r => c :: chars r
  end.

Definition wellFormedRank (r : string) : bool :=
  forallb (fun c => isPieceLetter c ||
                    (isDigit c && (1 <=? digitValue c)%nat && (digitValue c <=? 8)%nat))
          (chars r)
  && (length (squares r) =? 8)%nat.

Definition validPlacement (p : string) : bool :=
  (length (split "/" p) =? 8)%nat && forallb wellFormedRank (split "/" p).

(** The spec's words for the rotation, on the grid. *)
Definition rotate (b : list (list square)) : list (list square) :=
  reverse (map reverse b).

(** The fields of a descriptor. *)
Definition fields (fen : string) : list string := split " " fen.

Definition placementOf (fen : string) : string :=
  default EmptyString (fields fen !! 0).

End Board.

Import Board.

(** ** Notions the properties are stated with *)

Module Notions.

(** The castling field the handler writes, from the two back ranks. *)
Definition castlingField (rank1 rank8 : string) : string :=
  let castling := castlingOf (expand rank1) (expand rank8) in
  if decide (castling = "") then "-" else castling.

(** Rows are counted from 0 (rank 8) to 7 (rank 1), files from 0 (a)
    to 7 (h): e1 is row 7 file 4, h8 is row 0 file 7. *)
Definition whiteKingside (b : list (list square)) : Prop :=
  pieceAt b 7 4 = Some "K"%char ∧ pieceAt b 7 7 = Some "R"%char.
Definition whiteQueenside (b : list (list square)) : Prop :=
  pieceAt b 7 4 = Some "K"%char ∧ pieceAt b 7 0 = Some "R"%char.
Definition blackKingside (b : list (list square)) : Prop :=
  pieceAt b 0 4 = Some "k"%char ∧ pieceAt b 0 7 = Some "r"%char.
Definition blackQueenside (b : list (list square)) : Prop :=
  pieceAt b 0 4 = Some "k"%char ∧ pieceAt b 0 0 = Some "r"%char.

(** Where the heuristic locates a king: the first row that contains
    its letter. *)
Definition locatedAt (king : ascii) (rows : list string) (i : nat) : Prop :=
  includes king <$> rows !! i = Some true ∧
  forallb (fun r => negb (includes king r)) (take i rows) = true.

Definition notLocated (king : ascii) (rows : list string) : Prop :=
  forallb (fun r => negb (includes king r)) rows = true.

Definition located (king : ascii) (rows : list string) (row : option nat) : Prop :=
  match row with
  | Some i => locatedAt king rows i
  | None => notLocated king rows
  end.

(** The score of the king-position signal, a term per king found. *)
Definition kingScore (whiteKingRow blackKingRow : option nat) : Q :=
  (match whiteKingRow with
   | Some w => (7 # 2) - inject_Z (Z.of_nat w)
   | None => 0
   end +
   match blackKingRow with
   | Some b => inject_Z (Z.of_nat b) - (7 # 2)
   | None => 0
   end)%Q.


(** [part] out of [total] pieces is strictly more than 65%; no pieces,
    no majority. *)
Definition exceeds65Percent (part total : nat) : Prop :=
  0 < total ∧ (65 # 100 < inject_Z (Z.of_nat part) / inject_Z (Z.of_nat total))%Q.

(** The order of stages the specification gives: completion, then the
    orientation heuristic with the rotation, then castling inference. *)
Definition specPipeline (raw : string) : result string :=
  inferCastling (detectOrientation (complete raw)).

(** The blend the specification gives: the normalized value is clamped
    to [0,255] first and blended with the grayscale afterwards. *)
Definition specNormPixel (gray bg : Q) : Q :=
  ((1 # 2) * Qmin 255 (Qmax 0 ((gray + 1) / (bg + 1) * 255)) + (1 # 2) * gray)%Q.

(** The sum of a list of numbers. *)
Definition sumQ (l : list Q) : Q := fold_right Qplus 0%Q l.

(** The five default fields of the completion stage. *)
Definition defaultFields : list string := ["w"; "-"; "-"; "0"; "1"].

End Notions.

Import Notions.

(** ** Further notions *)

Module Syntax.

(** The castling fields of the position notation: the marker [-] or the
    letters K, Q, k, q, each at most once and in this order. *)
Definition castlingValues : list string :=
  ["-"; "K"; "Q"; "KQ"; "k"; "q"; "kq";
   "Kk"; "Kq"; "Kkq"; "Qk"; "Qq"; "Qkq"; "KQk"; "KQq"; "KQkq"].



End Syntax.

Import Syntax.

Module Legacy.

(** The orientation test of the earlier handler ([src/unnamed/part_002],
    lines 74-94): more White than Black letters in the first four rows
    and more Black than White letters in the remaining rows. *)
Definition isFlippedLegacy (fen : string) : bool :=
  let rows := rowsOf fen in
  let topHalf := join "" (take 4 rows) in
  let bottomHalf := join "" (drop 4 rows) in
  let whiteTop := countMatches isUpper topHalf in
  let blackTop := countMatches isLower topHalf in
  let whiteBottom := countMatches isUpper bottomHalf in
  let blackBottom := countMatches isLower bottomHalf in
  (blackTop <? whiteTop)%nat && (whiteBottom <? blackBottom)%nat.

End Legacy.

Import Legacy.

(** ** Image resizing ([compressImage], [src/app.js] lines 386-417) *)

Module Resize.

(** What the promise resolves to: the file as read, or a JPEG of the
    canvas with the given size and quality. *)
Inductive compressed :=
| Original
| Jpeg (width height : Z) (quality : Q).

(** [size] is [file.size]; [imgWidth] and [imgHeight] are the decoded
    image's dimensions. *)
Definition compressImage (size imgWidth imgHeight : Z) (maxWidth : Z) (quality : Q)
  : compressed :=
  if (size <? 300000)%Z then Original
  else
    let width := imgWidth in
    let height := imgHeight in
    if (width >? maxWidth)%Z then
      let height :=
        Filter.round (inject_Z height * inject_Z maxWidth / inject_Z width) in
      let width := maxWidth in
      Jpeg width height quality
    else Jpeg width height quality.

(** The call of [handleImageUpload], with the default arguments. *)
Definition compressImageDefault (size imgWidth imgHeight : Z) : compressed :=
  compressImage size imgWidth imgHeight 1024 (7 # 10).

End Resize.

(** ** Turn toggling ([toggleTurn], [src/app.js] lines 274-278) *)

Module Turn.

(** One press: [fen] is [this.chess.fen()]; the result is the string
    handed to the rules engine by [loadPosition].  What the engine reports
    at the next press is its own business and not modelled. *)
(** [colour === 'w' ? 'b' : 'w'] *)
Definition other (colour : option string) : string :=
  if decide (colour = Some "w") then "b" else "w".

Definition toggleTurn (fen : string) : string :=
  let parts := split " " fen in
  let parts := arraySet parts 1 (other (parts !! 1)) in
  loadPosition (join " " parts).

End Turn.

(** ** Move history ([onMove], [undo], [redo], [updateButtons],
    [updateBoardState], [loadPosition]; [src/app.js]) *)

Module History.

Record Move := { from : string; to : string; san : string }.

(** The part of the application state the navigation code owns. *)
Record Nav := { moveHistory : list Move; currentMoveIndex : Z }.

(** The constructor's values. *)
Definition initial : Nav := {| moveHistory := []; currentMoveIndex := -1 |}.

(** [a.slice(0, e)]: a negative end counts from the end of the array. *)
Definition slice0 {A} (a : list A) (e : Z) : list A :=
  if (e <? 0)%Z then take (length a - Z.to_nat (- e)) a
  else take (Z.to_nat e) a.

(** [a[i]] for a number [i]. *)
Definition at_ {A} (a : list A) (i : Z) : option A :=
  if (i <? 0)%Z then None else a !! Z.to_nat i.

(** [onMove]; [moved] is what [this.chess.move(...)] returned, [None]
    for [null]. *)
Definition onMove (moved : option Move) (s : Nav) : Nav :=
  match moved with
  | Some move =>
      let moveHistory :=
        if (currentMoveIndex s <? Z.of_nat (length (moveHistory s)) - 1)%Z
        then slice0 (moveHistory s) (currentMoveIndex s + 1)
        else moveHistory s in
      {| moveHistory := moveHistory ++ [move];
         currentMoveIndex := currentMoveIndex s + 1 |}
  | None => s
  end.

Definition undo (s : Nav) : Nav :=
  if (currentMoveIndex s >=? 0)%Z
  then {| moveHistory := moveHistory s; currentMoveIndex := currentMoveIndex s - 1 |}
  else s.

Definition redo (s : Nav) : Nav :=
  if (currentMoveIndex s <? Z.of_nat (length (moveHistory s)) - 1)%Z
  then {| moveHistory := moveHistory s; currentMoveIndex := currentMoveIndex s + 1 |}
  else s.

(** [loadPosition]; [loaded] tells whether [this.chess.load(fen)]
    returned rather than threw. *)
Definition loadPosition (loaded : bool) (s : Nav) : Nav :=
  if loaded then {| moveHistory := []; currentMoveIndex := -1 |} else s.

(** [updateButtons]: the [disabled] flags of the two buttons. *)
Definition undoDisabled (s : Nav) : bool := (currentMoveIndex s <? 0)%Z.
Definition redoDisabled (s : Nav) : bool :=
  (currentMoveIndex s >=? Z.of_nat (length (moveHistory s)) - 1)%Z.

(** The [lastMove] entry of [updateBoardState]'s configuration; reading
    [from] of [undefined] throws. *)
Definition lastMove (s : Nav) : result (option (string * string)) :=
  if (currentMoveIndex s >=? 0)%Z then
    match at_ (moveHistory s) (currentMoveIndex s) with
    | Some m => Ok (Some (from m, to m))
    | None => Throw TypeError
    end
  else Ok None.

(** What the user and the rules engine do to the navigation state. *)
Inductive event :=
| Moved (moved : option Move)
| Undo
| Redo
| Loaded (loaded : bool).

Definition step (s : Nav) (e : event) : Nav :=
  match e with
  | Moved moved => onMove moved s
  | Undo => undo s
  | Redo => redo s
  | Loaded loaded => loadPosition loaded s
  end.

Definition run (events : list event) : Nav := fold_left step events initial.

(** The index points at a move of the history, or is -1. *)
Definition inRange (s : Nav) : Prop :=
  (-1 ≤ currentMoveIndex s < Z.of_nat (length (moveHistory s)))%Z.

End History.

(** ** Move destinations ([getMoveDests], [src/app.js] lines 127-134) *)

Module Dests.

(** One step of the [forEach]: create the entry if it is missing, then
    push the destination onto the array stored there. *)
Definition addMove (dests : gmap string (list string)) (m : History.Move)
  : gmap string (list string) :=
  let dests :=
    if decide (dests !! History.from m = None)
    then <[History.from m := []]> dests else dests in
  match dests !! History.from m with
  | Some l => <[History.from m := l ++ [History.to m]]> dests
  | None => dests
  end.

(** [moves] is [this.chess.moves({ verbose: true })]. *)
Definition getMoveDests (moves : list History.Move) : gmap string (list string) :=
  fold_left addMove moves ∅.

(** The destinations of the moves that start on [sq], in order. *)
Definition destsFrom (sq : string) (moves : list History.Move) : list string :=
  History.to <$> filter (fun m => History.from m = sq) moves.

End Dests.

(** ** The engine worker ([src/unnamed/part_000]) *)

Module Worker.

(** What is posted to the engine: the worker's own [uci] and [stop], or
    a command of the main thread. *)
Inductive post :=
| Uci
| Stop
| Cmd (command : string).

(** The argument of [stockfish.postMessage]. *)
Definition render (p : post) : string :=
  match p with
  | Uci => "uci"
  | Stop => "stop"
  | Cmd c => c
  end.

(** What is posted to the main thread. *)
Inductive message :=
| Output (line : string)
| Failure.

Record state := {
  stockfish : bool;              (* an engine instance exists *)
  messageQueue : list string;
  isReady : bool;
  toEngine : list post;          (* every [stockfish.postMessage], in order *)
  toMain : list message          (* every [self.postMessage], in order *)
}.

Definition initial : state :=
  {| stockfish := false; messageQueue := []; isReady := false;
     toEngine := []; toMain := [] |}.

(** [initStockfish]; [created] tells whether loading the script and
    creating the instance returned rather than threw (a throw of the first
    [postMessage] is not considered). *)
Definition initStockfish (created : bool) (s : state) : state :=
  if created then
    {| stockfish := true; messageQueue := messageQueue s; isReady := isReady s;
       toEngine := toEngine s ++ [Uci]; toMain := toMain s |}
  else
    {| stockfish := stockfish s; messageQueue := messageQueue s; isReady := isReady s;
       toEngine := toEngine s; toMain := toMain s ++ [Failure] |}.

(** [stockfish.onmessage]: every line goes to the main thread; [uciok]
    marks the engine ready and empties the queue into it. *)
Definition onEngineLine (line : string) (s : state) : state :=
  let toMain := toMain s ++ [Output line] in
  if decide (line = "uciok") then
    {| stockfish := stockfish s; messageQueue := []; isReady := true;
       toEngine := toEngine s ++ (Cmd <$> messageQueue s); toMain := toMain |}
  else
    {| stockfish := stockfish s; messageQueue := messageQueue s; isReady := isReady s;
       toEngine := toEngine s; toMain := toMain |}.

(** [self.onmessage] for a message [{ type, command }]; for [init] the
    outcome of [initStockfish] is [created]. *)
Definition onMessage (type command : string) (created : bool) (s : state) : state :=
  if decide (type = "init") then initStockfish created s
  else
    let s :=
      if decide (type = "command") then
        if isReady s && stockfish s then
          {| stockfish := stockfish s; messageQueue := messageQueue s;
             isReady := isReady s;
             toEngine := toEngine s ++ [Cmd command]; toMain := toMain s |}
        else
          {| stockfish := stockfish s; messageQueue := messageQueue s ++ [command];
             isReady := isReady s;
             toEngine := toEngine s; toMain := toMain s |}
      else s in
    if decide (type = "stop") then
      if stockfish s then
        {| stockfish := stockfish s; messageQueue := messageQueue s;
           isReady := isReady s;
           toEngine := toEngine s ++ [Stop]; toMain := toMain s |}
      else s
    else s.

(** What happens to the worker: a message of the main thread, or a line
    of output of the engine instance (there is none before the instance
    exists). *)
Inductive event :=
| FromMain (type command : string) (created : bool)
| FromEngine (line : string).

Definition step (s : state) (e : event) : state :=
  match e with
  | FromMain type command created => onMessage type command created s
  | FromEngine line => if stockfish s then onEngineLine line s else s
  end.

Definition run (events : list event) : state := fold_left step events initial.

(** The commands the main thread has sent, in order. *)
Definition commandsSent (events : list event) : list string :=
  omap (fun e => match e with
                 | FromMain type command _ =>
                     if decide (type = "command") then Some command else None
                 | FromEngine _ => None
                 end) events.

(** The commands among the posts to the engine. *)
Definition commandsPosted (posts : list post) : list string :=
  omap (fun p => match p with Cmd c => Some c | _ => None end) posts.

(** The lines of the engine's output among the events. *)
Definition engineLines (events : list event) : list string :=
  omap (fun e => match e with
                 | FromEngine line => Some line
                 | FromMain _ _ _ => None
                 end) events.

(** The engine's lines among the messages to the main thread. *)
Definition linesForwarded (msgs : list message) : list string :=
  omap (fun m => match m with Output l => Some l | Failure => None end) msgs.

(** Once the engine is ready there is an instance and the queue is
    empty; what was posted and what waits make up what was sent. *)
Definition settled (events : list event) (s : state) : Prop :=
  (isReady s = true → stockfish s = true ∧ messageQueue s = []) ∧
  commandsPosted (toEngine s) ++ messageQueue s = commandsSent events.

End Worker.

(** ** The evaluation bar ([updateEvalDisplay] and [handleGameOver] of
    the analyzer, [src/unnamed/part_001]) *)

Module EvalBar.

(** The fields of [result] that decide text, width and colour ([depth]
    only feeds the depth label); [None] for [null] or [undefined]. *)
Record result := { score : option Z; mate : option Z }.

(** [evalPercent] is the exact value of the expression; binary64 may
    differ from it in the last place. *)
Record display := { evalText : string; evalPercent : Q; color : string }.

Section WithFormat.

(** [String(n)] and [x.toFixed(2)]. *)
Variable numberToString : Z → string.
Variable toFixed2 : Q → string.

Definition updateEvalDisplay (r : result) : display :=
  match mate r with
  | Some mate =>
      {| evalText :=
           if (mate >? 0)%Z then "+M" +:+ numberToString mate
           else "M" +:+ numberToString (Z.abs mate);
         evalPercent := if (mate >? 0)%Z then 100 else 0;
         color := if (mate >? 0)%Z then "var(--success-color)"
                  else "var(--danger-color)" |}
  | None =>
      match score r with
      | Some score =>
          let cpScore := (inject_Z score / 100)%Q in
          let clampedScore := Z.max (-1000) (Z.min 1000 score) in
          {| evalText :=
               (if Qle_bool 0 cpScore then "+" else "") +:+ toFixed2 cpScore;
             evalPercent := (50 + (inject_Z clampedScore / 1000) * 50)%Q;
             color := if (score >? 0)%Z then "var(--success-color)"
                      else "var(--danger-color)" |}
      | None =>
          {| evalText := "+0.00"; evalPercent := 50;
             color := "var(--success-color)" |}
      end
  end.

(** What [handleGameOver] shows on checkmate: [{ mate: 0 }]. *)
Definition checkmateDisplay : display :=
  updateEvalDisplay {| score := None; mate := Some 0%Z |}.

End WithFormat.

End EvalBar.

(** ** Strings and arrays *)

Section StringFacts.

Lemma append_nil (t : string) : "" +:+ t = t.
Proof. reflexivity. Qed.

Lemma append_cons c (s t : string) : String c s +:+ t = String c (s +:+ t).
Proof. reflexivity. Qed.

Lemma append_empty_r (s : string) : s +:+ "" = s.
Proof.
  induction s as [|c s IH]; [reflexivity|].
  rewrite append_cons. f_equal. exact IH.
Qed.

Lemma append_assoc (a b c : string) : (a +:+ b) +:+ c = a +:+ (b +:+ c).
Proof.
  induction a as [|x a IH]; [reflexivity|].
  rewrite !append_cons. f_equal. exact IH.
Qed.

Lemma includes_append c (a b : string) :
  includes c (a +:+ b) = includes c a || includes c b.
Proof.
  induction a as [|x a IH]; [reflexivity|].
  rewrite append_cons. simpl. rewrite IH. now rewrite orb_assoc.
Qed.

Lemma split_nonempty sep s : split sep s ≠ [].
Proof.
  destruct s as [|c s]; simpl; [discriminate|].
  destruct (Ascii.eqb c sep); [discriminate|].
  destruct (split sep s); discriminate.
Qed.

Lemma split_length_pos sep s : 0 < length (split sep s).
Proof.
  pose proof (split_nonempty sep s).
  destruct (split sep s); simpl; [congruence | lia].
Qed.

Lemma split_no_sep sep s :
  Forall (fun x => includes sep x = false) (split sep s).
Proof.
  induction s as [|c s IH]; simpl.
  - repeat constructor.
  - destruct (Ascii.eqb c sep) eqn:E.
    + constructor; [reflexivity | exact IH].
    + destruct (split sep s) as [|h t].
      * constructor; [simpl; now rewrite E | constructor].
      * inversion IH; subst. constructor; [simpl; now rewrite E | assumption].
Qed.

Lemma join_cons2 sep x y (l : list string) :
  join sep (x :: y :: l) = x +:+ sep +:+ join sep (y :: l).
Proof. reflexivity. Qed.

Lemma join_split sep s : join (String sep "") (split sep s) = s.
Proof.
  induction s as [|c s IH]; simpl; [reflexivity|].
  pose proof (split_nonempty sep s) as Hne.
  destruct (Ascii.eqb c sep) eqn:E.
  - apply Ascii.eqb_eq in E. subst c.
    destruct (split sep s) as [|h t]; [congruence|].
    rewrite join_cons2, IH. reflexivity.
  - destruct (split sep s) as [|h t]; [congruence|].
    destruct t as [|h' t].
    + simpl in *. now rewrite IH.
    + rewrite join_cons2. rewrite join_cons2 in IH.
      rewrite append_cons. now rewrite IH.
Qed.

Lemma split_no_occurrence sep s : includes sep s = false → split sep s = [s].
Proof.
  induction s as [|c s IH]; simpl; [reflexivity|].
  intros H. apply orb_false_iff in H as [H1 H2].
  rewrite H1, (IH H2). reflexivity.
Qed.

(** Splitting a string extended by a separator and a suffix. *)
Lemma split_extend sep (s t : string) :
  split sep (s +:+ String sep t) = split sep s ++ split sep t.
Proof.
  induction s as [|c s IH].
  - rewrite append_nil. simpl. now rewrite Ascii.eqb_refl.
  - rewrite append_cons. simpl.
    destruct (Ascii.eqb c sep); rewrite IH; [reflexivity|].
    pose proof (split_nonempty sep s) as Hne.
    destruct (split sep s); [congruence | reflexivity].
Qed.

Lemma split_join sep (l : list string) :
  l ≠ [] → Forall (fun x => includes sep x = false) l →
  split sep (join (String sep "") l) = l.
Proof.
  induction l as [|x l IH]; [congruence|].
  intros _ Hall. inversion Hall as [|? ? Hx Hl]; subst.
  destruct l as [|y l].
  - simpl. now apply split_no_occurrence.
  - rewrite join_cons2, append_cons, append_nil, split_extend.
    rewrite (split_no_occurrence _ _ Hx). simpl.
    f_equal. apply IH; [discriminate | assumption].
Qed.

Lemma arraySet_in_range (a : list string) i v :
  i < length a → arraySet a i v = <[i:=v]> a.
Proof.
  intros H. unfold arraySet.
  destruct (Nat.ltb_spec i (length a)); [reflexivity | lia].
Qed.

End StringFacts.

(** ** Completion *)

Section CompletionFacts.

Lemma complete_fields_short fen :
  length (fields fen) < 6 →
  fields (complete fen) = fields fen ++ defaultFields.
Proof.
  intros H. unfold complete, fields in *.
  destruct (Nat.ltb_spec (length (split " " fen)) 6); [|lia].
  change (fen +:+ " w - - 0 1") with (fen +:+ String " " "w - - 0 1").
  rewrite split_extend. reflexivity.
Qed.

Lemma complete_full fen : 6 ≤ length (fields fen) → complete fen = fen.
Proof.
  intros H. unfold complete, fields in *.
  destruct (Nat.ltb_spec (length (split " " fen)) 6); [lia | reflexivity].
Qed.

Lemma complete_fields_length fen : 6 ≤ length (fields (complete fen)).
Proof.
  destruct (Nat.lt_ge_cases (length (fields fen)) 6) as [H|H].
  - rewrite complete_fields_short by assumption.
    rewrite length_app. simpl.
    pose proof (split_length_pos " " fen). unfold fields. lia.
  - now rewrite complete_full.
Qed.

Lemma complete_idempotent fen : complete (complete fen) = complete fen.
Proof. apply complete_full, complete_fields_length. Qed.

(** A placement-only string gets exactly the five defaults. *)
Lemma complete_one_field fen :
  length (fields fen) = 1 →
  fields (complete fen) = fen :: defaultFields.
Proof.
  intros H. rewrite complete_fields_short by lia.
  pose proof (join_split " " fen) as J. unfold fields in *.
  destruct (split " " fen) as [|x [|y l]]; simpl in H; try lia.
  simpl in J. now subst.
Qed.

Lemma complete_placement fen : placementOf (complete fen) = placementOf fen.
Proof.
  unfold placementOf.
  destruct (Nat.lt_ge_cases (length (fields fen)) 6) as [H|H].
  - rewrite complete_fields_short by assumption.
    pose proof (split_length_pos " " fen). unfold fields in *.
    destruct (split " " fen); simpl in *; [lia | reflexivity].
  - now rewrite complete_full.
Qed.

End CompletionFacts.

(** ** Castling inference *)

Section CastlingFacts.

Lemma charAt_repeat_append x n (t : string) i :
  charAt (JS.repeat x n +:+ t) i =
  if (i <? n)%nat then Some x else charAt t (i - n).
Proof.
  revert i. induction n as [|n IH]; intros i.
  - simpl. rewrite append_nil. now rewrite Nat.sub_0_r.
  - simpl JS.repeat. rewrite append_cons. destruct i as [|i]; [reflexivity|].
    simpl charAt. rewrite IH. reflexivity.
Qed.

(** An expanded rank shows, square by square, the piece letter or a
    [1] for an empty square. *)
Lemma charAt_expand s i :
  charAt (expand s) i =
  match squares s !! i with
  | Some (Some c) => Some c
  | Some None => Some "1"%char
  | None => None
  end.
Proof.
  revert i. induction s as [|d r IH]; intros i; simpl.
  - now destruct i.
  - destruct (isDigit d).
    + rewrite charAt_repeat_append.
      destruct (Nat.ltb_spec i (digitValue d)) as [H|H].
      * rewrite lookup_app_l by now rewrite length_replicate.
        now rewrite lookup_replicate_2.
      * rewrite lookup_app_r by now rewrite length_replicate.
        rewrite length_replicate. apply IH.
    + destruct i as [|i]; [reflexivity | apply IH].
Qed.

Lemma charAt_expand_letter s i c :
  c ≠ "1"%char →
  charAt (expand s) i = Some c ↔ squares s !! i = Some (Some c).
Proof.
  intros Hc. rewrite charAt_expand.
  destruct (squares s !! i) as [[x|]|]; split; intros H;
    try discriminate; try congruence.
Qed.

Lemma pieceAt_board p row rank file :
  split "/" p !! row = Some rank →
  pieceAt (board p) row file =
  match squares rank !! file with Some sq => sq | None => None end.
Proof.
  intros H. unfold pieceAt, board.
  rewrite list_lookup_fmap, H. reflexivity.
Qed.

Lemma charAt_expand_pieceAt p row rank file c :
  c ≠ "1"%char →
  split "/" p !! row = Some rank →
  charAt (expand rank) file = Some c ↔ pieceAt (board p) row file = Some c.
Proof.
  intros Hc H. rewrite (pieceAt_board _ _ _ _ H), charAt_expand_letter by assumption.
  destruct (squares rank !! file) as [[x|]|]; split; intros E;
    try discriminate; congruence.
Qed.

Lemma castlingOf_K r1 r8 :
  includes "K" (castlingOf r1 r8) = true ↔
  charAt r1 4 = Some "K"%char ∧ charAt r1 7 = Some "R"%char.
Proof.
  unfold castlingOf. repeat case_decide; simpl; split;
    intros; try discriminate; try tauto; try reflexivity.
Qed.

Lemma castlingOf_Q r1 r8 :
  includes "Q" (castlingOf r1 r8) = true ↔
  charAt r1 4 = Some "K"%char ∧ charAt r1 0 = Some "R"%char.
Proof.
  unfold castlingOf. repeat case_decide; simpl; split;
    intros; try discriminate; try tauto; try reflexivity.
Qed.

Lemma castlingOf_k r1 r8 :
  includes "k" (castlingOf r1 r8) = true ↔
  charAt r8 4 = Some "k"%char ∧ charAt r8 7 = Some "r"%char.
Proof.
  unfold castlingOf. repeat case_decide; simpl; split;
    intros; try discriminate; try tauto; try reflexivity.
Qed.

Lemma castlingOf_q r1 r8 :
  includes "q" (castlingOf r1 r8) = true ↔
  charAt r8 4 = Some "k"%char ∧ charAt r8 0 = Some "r"%char.
Proof.
  unfold castlingOf. repeat case_decide; simpl; split;
    intros; try discriminate; try tauto; try reflexivity.
Qed.

Lemma castlingOf_empty r1 r8 :
  castlingOf r1 r8 = "" ↔
  ¬ (charAt r1 4 = Some "K"%char ∧ charAt r1 7 = Some "R"%char) ∧
  ¬ (charAt r1 4 = Some "K"%char ∧ charAt r1 0 = Some "R"%char) ∧
  ¬ (charAt r8 4 = Some "k"%char ∧ charAt r8 7 = Some "r"%char) ∧
  ¬ (charAt r8 4 = Some "k"%char ∧ charAt r8 0 = Some "r"%char).
Proof.
  unfold castlingOf. repeat case_decide; simpl; split;
    intros; try discriminate; try tauto; try reflexivity.
Qed.

Lemma castlingOf_no_space r1 r8 : includes " " (castlingOf r1 r8) = false.
Proof. unfold castlingOf. repeat case_decide; reflexivity. Qed.

Lemma castlingField_no_space rank1 rank8 :
  includes " " (castlingField rank1 rank8) = false.
Proof.
  unfold castlingField. case_decide; [reflexivity | apply castlingOf_no_space].
Qed.

Lemma castlingField_nonempty rank1 rank8 : castlingField rank1 rank8 ≠ "".
Proof. unfold castlingField. case_decide; [discriminate | assumption]. Qed.

(** The stage returns exactly when the placement has an eighth rank. *)
Lemma inferCastling_ok fen :
  8 ≤ length (split "/" (placementOf fen)) →
  ∃ rank8 rank1,
    split "/" (placementOf fen) !! 0 = Some rank8 ∧
    split "/" (placementOf fen) !! 7 = Some rank1 ∧
    inferCastling fen =
      Ok (join " " (arraySet (fields fen) 2 (castlingField rank1 rank8))).
Proof.
  intros H. unfold inferCastling, placementOf, fields in *.
  pose proof (split_length_pos " " fen) as Hpos.
  destruct (split " " fen) as [|p rest] eqn:E; [simpl in Hpos; lia|].
  simpl in *.
  destruct (lookup_lt_is_Some_2 (split "/" p) 0 ltac:(lia)) as [rank8 H8].
  destruct (lookup_lt_is_Some_2 (split "/" p) 7 ltac:(lia)) as [rank1 H1].
  exists rank8, rank1. rewrite H8, H1. repeat split; reflexivity.
Qed.

Lemma inferCastling_returns fen out :
  inferCastling fen = Ok out → 8 ≤ length (split "/" (placementOf fen)).
Proof.
  unfold inferCastling, placementOf, fields.
  destruct (split " " fen) as [|p rest]; simpl; [discriminate|].
  destruct (split "/" p !! 0); [|discriminate].
  destruct (split "/" p !! 7) eqn:E; [|discriminate].
  intros _. apply lookup_lt_Some in E. lia.
Qed.

Lemma inferCastling_throws fen :
  length (split "/" (placementOf fen)) < 8 → inferCastling fen = Throw TypeError.
Proof.
  unfold inferCastling, placementOf, fields.
  destruct (split " " fen) as [|p rest]; simpl; [reflexivity|].
  intros H. rewrite (lookup_ge_None_2 (split "/" p) 7) by lia.
  now destruct (split "/" p !! 0).
Qed.

(** The fields of the stage's output, for a descriptor that has a
    castling field to overwrite. *)
Lemma inferCastling_fields fen out :
  3 ≤ length (fields fen) →
  inferCastling fen = Ok out →
  ∃ rank8 rank1,
    split "/" (placementOf fen) !! 0 = Some rank8 ∧
    split "/" (placementOf fen) !! 7 = Some rank1 ∧
    fields out = <[2:=castlingField rank1 rank8]> (fields fen).
Proof.
  intros Hlen Hout.
  destruct (inferCastling_ok fen (inferCastling_returns _ _ Hout))
    as (rank8 & rank1 & H8 & H1 & E).
  exists rank8, rank1. repeat split; try assumption.
  rewrite E in Hout. injection Hout as <-.
  rewrite arraySet_in_range by lia.
  unfold fields at 1. apply split_join.
  - intros Hnil. apply (f_equal length) in Hnil.
    rewrite length_insert in Hnil. simpl in Hnil. lia.
  - apply Forall_insert; [apply split_no_sep | apply castlingField_no_space].
Qed.

End CastlingFacts.

Section CastlingClaims.

Lemma castlingOf_not_dash r1 r8 : castlingOf r1 r8 ≠ "-".
Proof. unfold castlingOf. repeat case_decide; discriminate. Qed.

Lemma validPlacement_ranks p : validPlacement p = true → length (split "/" p) = 8.
Proof.
  unfold validPlacement. intros H. apply andb_true_iff in H as [H _].
  now apply Nat.eqb_eq in H.
Qed.

(** C2.  On a six-field descriptor whose placement has eight well-formed
    ranks, castling inference returns a descriptor: no error is raised.
    Its castling field holds [K] exactly when the White king is on e1 and
    a White rook on h1, [Q] exactly when the White king is on e1 and a
    White rook on a1, [k] and [q] likewise for Black on e8, h8 and a8,
    each colour from its own back rank alone; the field is the marker
    [-] exactly when no right qualifies, and is never empty. *)
Theorem castling_inference_rights fen :
  length (fields fen) = 6 →
  validPlacement (placementOf fen) = true →
  ∃ out castling,
    inferCastling fen = Ok out ∧
    fields out !! 2 = Some castling ∧
    (includes "K" castling = true ↔ whiteKingside (board (placementOf fen))) ∧
    (includes "Q" castling = true ↔ whiteQueenside (board (placementOf fen))) ∧
    (includes "k" castling = true ↔ blackKingside (board (placementOf fen))) ∧
    (includes "q" castling = true ↔ blackQueenside (board (placementOf fen))) ∧
    (castling = "-" ↔
       ¬ whiteKingside (board (placementOf fen)) ∧
       ¬ whiteQueenside (board (placementOf fen)) ∧
       ¬ blackKingside (board (placementOf fen)) ∧
       ¬ blackQueenside (board (placementOf fen))) ∧
    castling ≠ "".
Proof.
  intros Hlen Hvalid.
  apply validPlacement_ranks in Hvalid.
  destruct (inferCastling_ok fen ltac:(lia)) as (rank8 & rank1 & H8 & H1 & E).
  exists (join " " (arraySet (fields fen) 2 (castlingField rank1 rank8))),
         (castlingField rank1 rank8).
  destruct (inferCastling_fields fen _ ltac:(lia) E) as (r8 & r1 & H8' & H1' & F).
  assert (r8 = rank8) by congruence. assert (r1 = rank1) by congruence. subst r8 r1.
  split; [exact E|].
  split; [rewrite F; apply list_lookup_insert_eq; lia|].
  assert (PK : ∀ file c, c ≠ "1"%char →
            charAt (expand rank1) file = Some c ↔
            pieceAt (board (placementOf fen)) 7 file = Some c)
    by (intros; now apply charAt_expand_pieceAt).
  assert (Pk : ∀ file c, c ≠ "1"%char →
            charAt (expand rank8) file = Some c ↔
            pieceAt (board (placementOf fen)) 0 file = Some c)
    by (intros; now apply charAt_expand_pieceAt).
  unfold whiteKingside, whiteQueenside, blackKingside, blackQueenside.
  rewrite <- !PK, <- !Pk by discriminate.
  pose proof (castlingOf_K (expand rank1) (expand rank8)) as CK.
  pose proof (castlingOf_Q (expand rank1) (expand rank8)) as CQ.
  pose proof (castlingOf_k (expand rank1) (expand rank8)) as Ck.
  pose proof (castlingOf_q (expand rank1) (expand rank8)) as Cq.
  pose proof (castlingOf_empty (expand rank1) (expand rank8)) as C0.
  pose proof (castlingOf_not_dash (expand rank1) (expand rank8)) as Cd.
  unfold castlingField. case_decide as Hc.
  - apply C0 in Hc. simpl includes.
    repeat split; try discriminate; tauto.
  - repeat split; try tauto; try congruence.
Qed.

Lemma castling_inference_rights_witness :
  ∃ out castling,
    inferCastling "r3k2r/8/8/8/8/8/8/R3K2R w - - 0 1" = Ok out ∧
    fields out !! 2 = Some castling ∧
    (includes "K" castling = true ↔
       whiteKingside (board (placementOf "r3k2r/8/8/8/8/8/8/R3K2R w - - 0 1"))) ∧
    (includes "Q" castling = true ↔
       whiteQueenside (board (placementOf "r3k2r/8/8/8/8/8/8/R3K2R w - - 0 1"))) ∧
    (includes "k" castling = true ↔
       blackKingside (board (placementOf "r3k2r/8/8/8/8/8/8/R3K2R w - - 0 1"))) ∧
    (includes "q" castling = true ↔
       blackQueenside (board (placementOf "r3k2r/8/8/8/8/8/8/R3K2R w - - 0 1"))) ∧
    (castling = "-" ↔
       ¬ whiteKingside (board (placementOf "r3k2r/8/8/8/8/8/8/R3K2R w - - 0 1")) ∧
       ¬ whiteQueenside (board (placementOf "r3k2r/8/8/8/8/8/8/R3K2R w - - 0 1")) ∧
       ¬ blackKingside (board (placementOf "r3k2r/8/8/8/8/8/8/R3K2R w - - 0 1")) ∧
       ¬ blackQueenside (board (placementOf "r3k2r/8/8/8/8/8/8/R3K2R w - - 0 1"))) ∧
    castling ≠ "".
Proof.
  apply (castling_inference_rights "r3k2r/8/8/8/8/8/8/R3K2R w - - 0 1");
    reflexivity.
Defined.

(** C10.  On a six-field descriptor the castling stage, which returns
    whenever the placement has an eighth rank, outputs a six-field
    descriptor that differs from its input in the castling field only:
    placement, active colour, en-passant target, halfmove clock and
    fullmove number are those of the input. *)
Theorem castling_inference_frame fen :
  length (fields fen) = 6 →
  (8 ≤ length (split "/" (placementOf fen)) → ∃ out, inferCastling fen = Ok out) ∧
  ∀ out, inferCastling fen = Ok out →
    length (fields out) = 6 ∧
    ∀ i, i ≠ 2 → fields out !! i = fields fen !! i.
Proof.
  intros Hlen. split.
  - intros H. destruct (inferCastling_ok fen H) as (? & ? & _ & _ & E). eauto.
  - intros out Hout.
    destruct (inferCastling_fields fen out ltac:(lia) Hout) as (r8 & r1 & _ & _ & F).
    rewrite F. split.
    + now rewrite length_insert.
    + intros i Hi. apply list_lookup_insert_ne. congruence.
Qed.

Lemma castling_inference_frame_witness :
  (8 ≤ length (split "/" (placementOf "4k3/8/8/8/8/8/8/R3K2R b - e3 4 9")) →
   ∃ out, inferCastling "4k3/8/8/8/8/8/8/R3K2R b - e3 4 9" = Ok out) ∧
  ∀ out, inferCastling "4k3/8/8/8/8/8/8/R3K2R b - e3 4 9" = Ok out →
    length (fields out) = 6 ∧
    ∀ i, i ≠ 2 → fields out !! i = fields "4k3/8/8/8/8/8/8/R3K2R b - e3 4 9" !! i.
Proof.
  apply (castling_inference_frame "4k3/8/8/8/8/8/8/R3K2R b - e3 4 9").
  reflexivity.
Defined.

End CastlingClaims.

(** ** The orientation heuristic *)

Section OrientationFacts.

Lemma Qgtb_spec (x y : Q) : Qgtb x y = true ↔ (y < x)%Q.
Proof.
  unfold Qgtb. rewrite negb_true_iff.
  destruct (Qle_bool x y) eqn:E.
  - apply Qle_bool_iff in E. split; [discriminate|].
    intros H. exfalso. exact (Qlt_not_le _ _ H E).
  - split; [|reflexivity]. intros _. apply Qnot_le_lt.
    intros H. apply Qle_bool_iff in H. congruence.
Qed.

Lemma findIndexFrom_notLocated king i rows :
  notLocated king rows → findIndexFrom (includes king) i rows = (-1)%Z.
Proof.
  unfold notLocated. revert i.
  induction rows as [|r rows IH]; intros i H; simpl in *; [reflexivity|].
  apply andb_true_iff in H as [H1 H2].
  apply negb_true_iff in H1. rewrite H1. now apply IH.
Qed.

Lemma findIndexFrom_locatedAt king i rows k :
  locatedAt king rows k →
  findIndexFrom (includes king) i rows = (i + Z.of_nat k)%Z.
Proof.
  unfold locatedAt. revert i k.
  induction rows as [|r rows IH]; intros i k [H1 H2].
  - rewrite lookup_nil in H1. discriminate.
  - destruct k as [|k]; simpl in *.
    + injection H1 as ->. lia.
    + apply andb_true_iff in H2 as [H2 H3].
      apply negb_true_iff in H2. rewrite H2.
      rewrite (IH (i + 1)%Z k) by (split; assumption). lia.
Qed.

Lemma findIndex_located king rows row :
  located king rows row →
  findIndex (includes king) rows =
  match row with Some i => Z.of_nat i | None => (-1)%Z end.
Proof.
  unfold findIndex. destruct row as [i|]; simpl; intros H.
  - now rewrite (findIndexFrom_locatedAt _ _ _ _ H).
  - now apply findIndexFrom_notLocated.
Qed.

(** Every list of rows locates each king somewhere or nowhere. *)
Lemma located_total king rows : ∃ row, located king rows row.
Proof.
  induction rows as [|r rows [row IH]].
  - exists None. reflexivity.
  - destruct (includes king r) eqn:E.
    + exists (Some 0). split; simpl; [now rewrite E | reflexivity].
    + destruct row as [i|].
      * exists (Some (S i)). destruct IH as [H1 H2].
        split; simpl; [exact H1 | now rewrite E].
      * exists None. unfold located, notLocated in *. simpl. now rewrite E.
Qed.



Lemma fraction_exceeds (w b : nat) :
  Qgtb (ofNat w / ofNat (orOne (w + b))) (65 # 100) = true ↔
  exceeds65Percent w (w + b).
Proof.
  rewrite Qgtb_spec. unfold exceeds65Percent, orOne, ofNat.
  destruct (Nat.eqb_spec (w + b) 0) as [E|E].
  - assert (w = 0) as -> by lia. rewrite E. split.
    + intros H. exfalso. revert H. apply Qle_not_lt. discriminate.
    + intros [H _]. lia.
  - split; [intros H; split; [lia | exact H] | intros [_ H]; exact H].
Qed.

(** The 65% bar in whole numbers. *)
Lemma exceeds65Percent_nat part total :
  part ≤ total →
  exceeds65Percent part total ↔ 65 * total < 100 * part.
Proof.
  intros Hle. unfold exceeds65Percent.
  assert (Q65 : ∀ t p : nat, 0 < t →
            (65 # 100 < inject_Z (Z.of_nat p) / inject_Z (Z.of_nat t))%Q ↔
            ((65 # 100) * inject_Z (Z.of_nat t) < inject_Z (Z.of_nat p))%Q).
  { intros t p Ht.
    assert (0 < inject_Z (Z.of_nat t))%Q as Hq by (unfold Qlt; simpl; lia).
    rewrite <- (Qmult_lt_r _ _ _ Hq).
    assert (inject_Z (Z.of_nat p) / inject_Z (Z.of_nat t) * inject_Z (Z.of_nat t)
            == inject_Z (Z.of_nat p))%Q as ->; [|reflexivity].
    field. intros E. rewrite E in Hq. now apply Qlt_irrefl in Hq. }
  split.
  - intros [Hpos H]. apply Q65 in H; [|assumption].
    unfold Qlt in H. simpl in H. rewrite Pos.mul_1_r in H. lia.
  - intros H. assert (0 < total) by lia. split; [assumption|].
    apply Q65; [assumption|]. unfold Qlt. simpl. rewrite Pos.mul_1_r. lia.
Qed.

End OrientationFacts.

Section OrientationClaims.













End OrientationClaims.

(** ** The rotation transform *)

Section RotationFacts.

Lemma reverseString_append (a b : string) :
  reverseString (a +:+ b) = reverseString b +:+ reverseString a.
Proof.
  induction a as [|c a IH].
  - rewrite append_nil. simpl. now rewrite append_empty_r.
  - rewrite append_cons. simpl. rewrite IH. apply append_assoc.
Qed.

Lemma reverseString_involutive s : reverseString (reverseString s) = s.
Proof.
  induction s as [|c s IH]; [reflexivity|].
  simpl. rewrite reverseString_append, IH. reflexivity.
Qed.

Lemma includes_reverseString c s : includes c (reverseString s) = includes c s.
Proof.
  induction s as [|d s IH]; [reflexivity|].
  simpl. rewrite includes_append, IH. simpl.
  rewrite orb_false_r. apply orb_comm.
Qed.

Lemma squares_append (a b : string) : squares (a +:+ b) = squares a ++ squares b.
Proof.
  induction a as [|c a IH]; [reflexivity|].
  rewrite append_cons. simpl. rewrite IH.
  destruct (isDigit c); [now rewrite app_assoc | reflexivity].
Qed.

Lemma squares_reverseString s : squares (reverseString s) = reverse (squares s).
Proof.
  induction s as [|c s IH]; [reflexivity|].
  simpl. rewrite squares_append, IH. simpl.
  destruct (isDigit c).
  - rewrite app_nil_r, reverse_app, reverse_replicate. reflexivity.
  - now rewrite reverse_cons.
Qed.

Lemma chars_append (a b : string) : chars (a +:+ b) = chars a ++ chars b.
Proof.
  induction a as [|c a IH]; [reflexivity|].
  rewrite append_cons. simpl. now rewrite IH.
Qed.

Lemma chars_reverseString s : chars (reverseString s) = reverse (chars s).
Proof.
  induction s as [|c s IH]; [reflexivity|].
  simpl. rewrite chars_append, IH. simpl. now rewrite reverse_cons.
Qed.

Lemma forallb_reverse {A} (f : A → bool) (l : list A) :
  forallb f (reverse l) = forallb f l.
Proof.
  induction l as [|x l IH]; [reflexivity|].
  rewrite reverse_cons, forallb_app, IH. simpl.
  rewrite andb_true_r. apply andb_comm.
Qed.

Lemma wellFormedRank_reverseString r :
  wellFormedRank (reverseString r) = wellFormedRank r.
Proof.
  unfold wellFormedRank.
  rewrite chars_reverseString, forallb_reverse.
  now rewrite squares_reverseString, length_reverse.
Qed.

Lemma split_rotatePlacement p :
  split "/" (rotatePlacement p) = reverse (map reverseString (split "/" p)).
Proof.
  unfold rotatePlacement. apply split_join.
  - intros H. apply (f_equal length) in H.
    rewrite length_reverse, length_map in H.
    pose proof (split_length_pos "/" p). simpl in H. lia.
  - apply Forall_reverse, Forall_map.
    eapply Forall_impl; [apply split_no_sep|].
    intros x Hx. simpl. now rewrite includes_reverseString.
Qed.

Lemma map_reverseString_involutive (l : list string) :
  map reverseString (map reverseString l) = l.
Proof.
  induction l as [|x l IH]; [reflexivity|].
  simpl. now rewrite reverseString_involutive, IH.
Qed.

Lemma map_reverse {A B} (f : A → B) (l : list A) :
  map f (reverse l) = reverse (map f l).
Proof.
  induction l as [|x l IH]; [reflexivity|].
  simpl. rewrite !reverse_cons, map_app, IH. reflexivity.
Qed.

(** Rotating twice gives the placement back, whatever the string. *)
Lemma rotatePlacement_involutive p : rotatePlacement (rotatePlacement p) = p.
Proof.
  unfold rotatePlacement at 1. rewrite split_rotatePlacement.
  rewrite map_reverse, reverse_involutive, map_reverseString_involutive.
  apply join_split.
Qed.

Lemma board_rotatePlacement p : board (rotatePlacement p) = rotate (board p).
Proof.
  unfold board, rotate. rewrite split_rotatePlacement, map_reverse.
  f_equal. rewrite !map_map. apply map_ext. intros r.
  apply squares_reverseString.
Qed.

Lemma concat_rotate {A} (b : list (list A)) :
  concat (reverse (map reverse b)) = reverse (concat b).
Proof.
  induction b as [|r b IH]; [reflexivity|].
  simpl. rewrite reverse_cons, concat_app, IH. simpl.
  now rewrite app_nil_r, reverse_app.
Qed.

Lemma omap_reverse {A B} (f : A → option B) (l : list A) :
  omap f (reverse l) = reverse (omap f l).
Proof.
  induction l as [|x l IH]; [reflexivity|].
  rewrite reverse_cons, omap_app, IH. simpl.
  destruct (f x); [now rewrite reverse_cons | now rewrite app_nil_r].
Qed.

Lemma pieces_rotate b : pieces (rotate b) = reverse (pieces b).
Proof. unfold pieces, rotate. now rewrite concat_rotate, omap_reverse. Qed.

Lemma validPlacement_rotatePlacement p :
  validPlacement (rotatePlacement p) = validPlacement p.
Proof.
  unfold validPlacement. rewrite split_rotatePlacement.
  rewrite length_reverse, length_map, forallb_reverse.
  f_equal. induction (split "/" p) as [|r l IH]; [reflexivity|].
  simpl. now rewrite wellFormedRank_reverseString, IH.
Qed.

Lemma wellFormedRank_squares r : wellFormedRank r = true → length (squares r) = 8.
Proof.
  unfold wellFormedRank. intros H. apply andb_true_iff in H as [_ H].
  now apply Nat.eqb_eq in H.
Qed.

(** On a grid of eight rows of eight squares the rotation moves the
    content of (7 - row, 7 - file) to (row, file). *)
Lemma pieceAt_rotate (b : list (list square)) row file :
  length b = 8 → Forall (fun r => length r = 8) b →
  row < 8 → file < 8 →
  pieceAt (rotate b) row file = pieceAt b (7 - row) (7 - file).
Proof.
  intros Hb Hrows Hr Hf. unfold pieceAt, rotate.
  rewrite reverse_lookup by (rewrite length_map; lia).
  rewrite length_map, Hb.
  replace (8 - S row) with (7 - row) by lia.
  rewrite list_lookup_fmap.
  destruct (b !! (7 - row)) as [r|] eqn:E; [|reflexivity].
  simpl. assert (length r = 8) as Hlen.
  { rewrite Forall_forall in Hrows. apply Hrows.
    eapply list_elem_of_lookup_2. exact E. }
  unfold square in *.
  rewrite reverse_lookup by lia. rewrite Hlen.
  now replace (8 - S file) with (7 - file) by lia.
Qed.

Lemma validPlacement_grid p :
  validPlacement p = true →
  length (board p) = 8 ∧ Forall (fun r => length r = 8) (board p).
Proof.
  unfold validPlacement, board. intros H.
  apply andb_true_iff in H as [H1 H2].
  apply Nat.eqb_eq in H1. split; [now rewrite length_map|].
  rewrite forallb_forall in H2.
  rewrite Forall_forall. intros sq Hin.
  apply list_elem_of_In, in_map_iff in Hin as (r & <- & Hr).
  apply wellFormedRank_squares, H2, Hr.
Qed.

Lemma includes_join c sep (l : list string) :
  includes c sep = false →
  Forall (fun x => includes c x = false) l →
  includes c (join sep l) = false.
Proof.
  intros Hsep. induction l as [|x l IH]; intros H; [reflexivity|].
  inversion H as [|? ? Hx Hl]; subst.
  destruct l as [|y l]; [exact Hx|].
  rewrite join_cons2, !includes_append, Hx, Hsep, (IH Hl). reflexivity.
Qed.

Lemma rotatePlacement_no_space p :
  includes " " p = false → includes " " (rotatePlacement p) = false.
Proof.
  intros H. unfold rotatePlacement. apply includes_join; [reflexivity|].
  apply Forall_reverse, Forall_map.
  pose proof (join_split "/" p) as J.
  rewrite <- J in H. clear J.
  induction (split "/" p) as [|x l IH]; constructor.
  - simpl. rewrite includes_reverseString.
    destruct l; [exact H|].
    rewrite join_cons2, includes_append in H.
    now apply orb_false_iff in H as [H _].
  - destruct l as [|y l]; [constructor|].
    apply IH. rewrite join_cons2, !includes_append in H.
    apply orb_false_iff in H as [_ H].
    now apply orb_false_iff in H as [_ H].
Qed.

Lemma fields_rotateFen fen :
  fields (rotateFen fen) =
  match fields fen with
  | p :: rest => rotatePlacement p :: rest
  | [] => []
  end.
Proof.
  unfold rotateFen, fields.
  pose proof (split_no_sep " " fen) as Hall.
  destruct (split " " fen) as [|p rest] eqn:E.
  - now apply split_nonempty in E.
  - inversion Hall as [|? ? Hp Hrest]; subst.
    apply split_join; [discriminate|].
    constructor; [now apply rotatePlacement_no_space | assumption].
Qed.

Lemma rotateFen_involutive fen : rotateFen (rotateFen fen) = fen.
Proof.
  pose proof (fields_rotateFen fen) as F.
  unfold rotateFen at 1. unfold fields in F. rewrite F.
  pose proof (join_split " " fen) as J.
  destruct (split " " fen) as [|p rest] eqn:E.
  - now apply split_nonempty in E.
  - now rewrite rotatePlacement_involutive.
Qed.

End RotationFacts.

Section RotationClaims.

(** C8.  On a valid placement the rotation transform is an involution
    and yields a valid placement; it reverses the order of the rows and
    of the squares within each row, so the square (row, file) receives
    the content of (7 - row, 7 - file), and the pieces of the output are
    a rearrangement of the pieces of the input. *)
Theorem rotation_involution p :
  validPlacement p = true →
  rotatePlacement (rotatePlacement p) = p ∧
  validPlacement (rotatePlacement p) = true ∧
  board (rotatePlacement p) = reverse (map reverse (board p)) ∧
  pieces (board (rotatePlacement p)) ≡ₚ pieces (board p) ∧
  ∀ row file, row < 8 → file < 8 →
    pieceAt (board (rotatePlacement p)) row file
    = pieceAt (board p) (7 - row) (7 - file).
Proof.
  intros Hvalid.
  split; [apply rotatePlacement_involutive|].
  split; [now rewrite validPlacement_rotatePlacement|].
  split; [apply board_rotatePlacement|].
  split.
  - rewrite board_rotatePlacement, pieces_rotate. apply reverse_Permutation.
  - intros row file Hr Hf. rewrite board_rotatePlacement.
    destruct (validPlacement_grid p Hvalid) as [H8 Hrows].
    now apply pieceAt_rotate.
Qed.

Lemma rotation_involution_witness :
  let p := "r1bqkbnr/pppp1ppp/2n5/4p3/4P3/5N2/PPPP1PPP/RNBQKB1R" in
  rotatePlacement (rotatePlacement p) = p ∧
  validPlacement (rotatePlacement p) = true ∧
  board (rotatePlacement p) = reverse (map reverse (board p)) ∧
  pieces (board (rotatePlacement p)) ≡ₚ pieces (board p) ∧
  ∀ row file, row < 8 → file < 8 →
    pieceAt (board (rotatePlacement p)) row file
    = pieceAt (board p) (7 - row) (7 - file).
Proof.
  apply (rotation_involution
           "r1bqkbnr/pppp1ppp/2n5/4p3/4P3/5N2/PPPP1PPP/RNBQKB1R").
  reflexivity.
Defined.

End RotationClaims.

(** ** The post-processing pipeline *)

Section PipelineFacts.

Lemma rowsOf_placementOf fen : rowsOf fen = split "/" (placementOf fen).
Proof.
  unfold rowsOf, placementOf, fields.
  pose proof (split_nonempty " " fen).
  destruct (split " " fen); [congruence | reflexivity].
Qed.

(** The heuristic reads the placement only. *)
Lemma isFlipped_placement fen fen' :
  placementOf fen = placementOf fen' → isFlipped fen = isFlipped fen'.
Proof.
  intros H. unfold isFlipped. now rewrite !rowsOf_placementOf, H.
Qed.

Lemma inferCastling_placement fen out :
  3 ≤ length (fields fen) → inferCastling fen = Ok out →
  placementOf out = placementOf fen.
Proof.
  intros Hlen Hout.
  destruct (inferCastling_fields fen out Hlen Hout) as (? & ? & _ & _ & F).
  unfold placementOf. rewrite F. now rewrite list_lookup_insert_ne.
Qed.

Lemma inferCastling_length fen out :
  3 ≤ length (fields fen) → inferCastling fen = Ok out →
  length (fields out) = length (fields fen).
Proof.
  intros Hlen Hout.
  destruct (inferCastling_fields fen out Hlen Hout) as (? & ? & _ & _ & F).
  rewrite F. apply length_insert.
Qed.

Lemma inferCastling_nonempty fen out : inferCastling fen = Ok out → out ≠ "".
Proof.
  intros Hout ->.
  destruct (inferCastling_ok fen (inferCastling_returns _ _ Hout))
    as (rank8 & rank1 & _ & _ & E).
  rewrite E in Hout. injection Hout as Hout.
  apply (f_equal (split " ")) in Hout. simpl in Hout.
  pose proof (castlingField_nonempty rank1 rank8) as Hne.
  pose proof (castlingField_no_space rank1 rank8) as Hsp.
  assert (Hparts : arraySet (fields fen) 2 (castlingField rank1 rank8) ≠ [] ∧
            Forall (fun x => includes " " x = false)
                   (arraySet (fields fen) 2 (castlingField rank1 rank8)) ∧
            castlingField rank1 rank8 ∈ arraySet (fields fen) 2 (castlingField rank1 rank8)).
  { unfold arraySet, fields.
    pose proof (split_no_sep " " fen) as Hall.
    destruct (Nat.ltb_spec 2 (length (split " " fen))) as [Hlt|Hge].
    - split; [|split].
      + intros Hnil. apply (f_equal length) in Hnil.
        rewrite length_insert in Hnil. simpl in Hnil. lia.
      + now apply Forall_insert.
      + eapply list_elem_of_lookup_2. now apply list_lookup_insert_eq.
    - split; [|split].
      + intros Hnil. apply (f_equal length) in Hnil.
        rewrite !length_app in Hnil. simpl in Hnil. lia.
      + apply Forall_app. split; [assumption|].
        apply Forall_app. split; [|now repeat constructor].
        apply Forall_replicate. reflexivity.
      + rewrite !elem_of_app. right. right. apply list_elem_of_singleton.
        reflexivity. }
  destruct Hparts as (Hnil & Hall & Hin).
  rewrite split_join in Hout by assumption.
  rewrite Hout in Hin. apply list_elem_of_singleton in Hin. congruence.
Qed.

(** On a board the heuristic judges normal, the code and the order of
    the specification give the same position string. *)
Lemma pipeline_normal raw out :
  raw ≠ "" →
  isFlipped (complete raw) = false →
  handleImageUpload (Some raw) = Ok out ↔ specPipeline raw = Ok out.
Proof.
  intros Hraw Hnormal.
  unfold handleImageUpload, handler, specPipeline, postProcess, detectOrientation.
  rewrite Hnormal. rewrite decide_False by assumption.
  pose proof (complete_fields_length raw) as Hlen.
  destruct (inferCastling (complete raw)) as [fen|e] eqn:E; [|split; discriminate].
  rewrite decide_False by (eapply inferCastling_nonempty; exact E).
  rewrite (isFlipped_placement fen (complete raw))
    by (apply inferCastling_placement; [lia | exact E]).
  rewrite Hnormal. unfold loadPosition.
  rewrite complete_full; [reflexivity|].
  rewrite (inferCastling_length (complete raw) fen); [exact Hlen | lia | exact E].
Qed.

End PipelineFacts.

Section PipelineClaims.

(** C3.  A partial descriptor of four fields: completion appends all
    five defaults to it, which makes nine fields, not six. *)
Theorem completion_four_fields :
  length (fields "8/8/8/8/8/2k5/2P5/2K5 b - -") = 4 ∧
  complete "8/8/8/8/8/2k5/2P5/2K5 b - -"
  = "8/8/8/8/8/2k5/2P5/2K5 b - - w - - 0 1" ∧
  fields (complete "8/8/8/8/8/2k5/2P5/2K5 b - -")
  = ["8/8/8/8/8/2k5/2P5/2K5"; "b"; "-"; "-"; "w"; "-"; "-"; "0"; "1"].
Proof. repeat split; reflexivity. Qed.

(** C4.  A start position photographed from Black's side: the code
    infers the castling rights on the placement as received, before the
    client rotates it, and ends with no rights; in the order of the
    specification the rights are inferred on the rotated placement and
    all four qualify. *)
Theorem pipeline_castling_before_rotation :
  postProcess "RNBKQBNR/PPPPPPPP/8/8/8/8/pppppppp/rnbkqbnr"
  = Ok "RNBKQBNR/PPPPPPPP/8/8/8/8/pppppppp/rnbkqbnr w - - 0 1" ∧
  isFlipped "RNBKQBNR/PPPPPPPP/8/8/8/8/pppppppp/rnbkqbnr w - - 0 1" = true ∧
  handleImageUpload (Some "RNBKQBNR/PPPPPPPP/8/8/8/8/pppppppp/rnbkqbnr")
  = Ok "rnbqkbnr/pppppppp/8/8/8/8/PPPPPPPP/RNBQKBNR w - - 0 1" ∧
  specPipeline "RNBKQBNR/PPPPPPPP/8/8/8/8/pppppppp/rnbkqbnr"
  = Ok "rnbqkbnr/pppppppp/8/8/8/8/PPPPPPPP/RNBQKBNR w KQkq - 0 1".
Proof. repeat split; vm_compute; reflexivity. Qed.

(** C9, as the specification states it: the White king is not located
    in row 6 of the scenario's placement. *)
Lemma end_to_end_white_king_not_row_6 :
  ¬ (located "K" (rowsOf (complete "8/8/8/8/8/2k5/2P5/2K5")) (Some 6) ∧
     located "k" (rowsOf (complete "8/8/8/8/8/2k5/2P5/2K5")) (Some 5) ∧
     (kingScore (Some 6%nat) (Some 5%nat) == 0)%Q).
Proof. intros [[H _] _]. vm_compute in H. discriminate. Qed.

(** C9.  For the raw string 8/8/8/8/8/2k5/2P5/2K5 completion appends
    the five defaults; castling inference writes the marker [-]; the
    heuristic locates the White king in row 7 and the Black king in
    row 5, the score is -2 and the decision is normal, so nothing is
    rotated; the final string is 8/8/8/8/8/2k5/2P5/2K5 w - - 0 1, in the
    order of the code and in the order of the specification alike. *)
Theorem end_to_end_scenario :
  complete "8/8/8/8/8/2k5/2P5/2K5" = "8/8/8/8/8/2k5/2P5/2K5" +:+ " w - - 0 1" ∧
  located "K" (rowsOf (complete "8/8/8/8/8/2k5/2P5/2K5")) (Some 7) ∧
  located "k" (rowsOf (complete "8/8/8/8/8/2k5/2P5/2K5")) (Some 5) ∧
  (kingScore (Some 7%nat) (Some 5%nat) == -2)%Q ∧
  isFlipped (complete "8/8/8/8/8/2k5/2P5/2K5") = false ∧
  detectOrientation (complete "8/8/8/8/8/2k5/2P5/2K5")
  = complete "8/8/8/8/8/2k5/2P5/2K5" ∧
  castlingField "2K5" "8" = "-" ∧
  postProcess "8/8/8/8/8/2k5/2P5/2K5" = Ok "8/8/8/8/8/2k5/2P5/2K5 w - - 0 1" ∧
  handleImageUpload (Some "8/8/8/8/8/2k5/2P5/2K5")
  = Ok "8/8/8/8/8/2k5/2P5/2K5 w - - 0 1" ∧
  specPipeline "8/8/8/8/8/2k5/2P5/2K5" = Ok "8/8/8/8/8/2k5/2P5/2K5 w - - 0 1".
Proof.
  repeat split; try reflexivity; vm_compute; congruence.
Qed.

End PipelineClaims.

(** ** The bleed-removal filter *)

Section FilterFacts.

Import Filter.

Lemma toUint8Clamp_range v : (0 ≤ toUint8Clamp v ≤ 255)%Z.
Proof. unfold toUint8Clamp. lia. Qed.

(** A loop that writes four entries per index. *)
Lemma flat_map_quad_lookup {A} (g : nat → A * A * A * A) (l : list nat) i j :
  j < 4 →
  flat_map (fun x => let '(a, b, c, d) := g x in [a; b; c; d]) l !! (4 * i + j)
  = match l !! i with
    | Some x => (let '(a, b, c, d) := g x in [a; b; c; d]) !! j
    | None => None
    end.
Proof.
  intros Hj. revert i. induction l as [|x l IH]; intros i.
  - reflexivity.
  - simpl flat_map. destruct i as [|i].
    + simpl. destruct (g x) as [[[a b] c] d].
      rewrite lookup_app_l by (simpl; lia). reflexivity.
    + replace (4 * S i + j) with (4 + (4 * i + j)) by lia.
      destruct (g x) as [[[a b] c] d] eqn:E.
      rewrite lookup_app_r by (simpl; lia).
      simpl length. replace (4 + (4 * i + j) - 4) with (4 * i + j) by lia.
      rewrite IH. reflexivity.
Qed.

Lemma flat_map_quad_length {A} (g : nat → A * A * A * A) (l : list nat) :
  length (flat_map (fun x => let '(a, b, c, d) := g x in [a; b; c; d]) l)
  = 4 * length l.
Proof.
  induction l as [|x l IH]; [reflexivity|].
  simpl flat_map. rewrite length_app, IH.
  destruct (g x) as [[[a b] c] d]. simpl. lia.
Qed.

Lemma getQ_map_seq (f : nat → Q) n i :
  i < n → getQ (map f (seq 0 n)) (Z.of_nat i) = f i.
Proof.
  intros H. unfold getQ. rewrite Nat2Z.id.
  rewrite (nth_indep _ _ (f 0)) by now rewrite length_map, length_seq.
  rewrite map_nth, seq_nth by assumption. reflexivity.
Qed.

Lemma normOf_pixel exp img i :
  i < width img * height img →
  getQ (normOf exp img) (Z.of_nat i)
  = normPixel (getQ (grayOf img) (Z.of_nat i))
              (getQ (_gaussianBlur exp (grayOf img) (width img) (height img) 25)
                    (Z.of_nat i)).
Proof. intros H. unfold normOf. now rewrite getQ_map_seq. Qed.

(** The blend is clamped after it is formed. *)
Lemma normPixel_clamped_blend gray bg :
  (normPixel gray bg ==
   Qmin 255 (Qmax 0 ((1 # 2) * ((gray + 1) / (bg + 1) * 255) + (1 # 2) * gray)))%Q.
Proof.
  unfold normPixel.
  apply Q.min_compat; [reflexivity|].
  apply Q.max_compat; [reflexivity|]. ring.
Qed.

Lemma normPixel_range gray bg : (0 <= normPixel gray bg <= 255)%Q.
Proof.
  unfold normPixel. split.
  - apply Q.min_glb; [discriminate | apply Q.le_max_l].
  - apply Q.le_min_l.
Qed.

Lemma normPixel_agrees gray bg :
  (0 <= (gray + 1) / (bg + 1) * 255 <= 255)%Q →
  (0 <= gray <= 255)%Q →
  (normPixel gray bg == specNormPixel gray bg)%Q.
Proof.
  intros [Hn0 Hn1] [Hg0 Hg1]. unfold normPixel, specNormPixel.
  set (n := ((gray + 1) / (bg + 1) * 255)%Q) in *.
  rewrite (Q.max_r 0 n) by assumption.
  rewrite (Q.min_r 255 n) by assumption.
  rewrite Q.max_r by lra.
  rewrite Q.min_r by lra.
  ring.
Qed.

End FilterFacts.

Section BlurFacts.

Import Filter.

Lemma fold_left_Qplus (l : list Q) (a : Q) : (fold_left Qplus l a == a + sumQ l)%Q.
Proof.
  revert a. induction l as [|x l IH]; intros a; simpl.
  - ring.
  - rewrite IH. ring.
Qed.

Lemma fold_left_weighted (f g : Z → Q) (l : list Z) (a : Q) :
  (fold_left (fun acc k => acc + f k * g k) l a
   == a + sumQ (map (fun k => f k * g k) l))%Q.
Proof.
  revert a. induction l as [|x l IH]; intros a; simpl.
  - ring.
  - rewrite IH. ring.
Qed.

Lemma sumQ_nonneg (l : list Q) : Forall (fun x => 0 <= x)%Q l → (0 <= sumQ l)%Q.
Proof.
  induction 1 as [|x l Hx _ IH]; simpl; [apply Qle_refl | lra].
Qed.

Lemma sumQ_pos (l : list Q) :
  l ≠ [] → Forall (fun x => 0 < x)%Q l → (0 < sumQ l)%Q.
Proof.
  intros Hne H. destruct H as [|x l Hx Hl]; [congruence|].
  simpl. assert (0 <= sumQ l)%Q; [|lra].
  apply sumQ_nonneg. eapply Forall_impl; [exact Hl|].
  intros y Hy. simpl in *. lra.
Qed.

Lemma sumQ_scale (l : list Q) (c : Q) :
  (sumQ (map (fun w => w / c) l) == sumQ l / c)%Q.
Proof.
  induction l as [|x l IH]; simpl.
  - unfold Qdiv. ring.
  - rewrite IH. unfold Qdiv. ring.
Qed.

(** Weighted sums against weights that are not negative. *)
Lemma weighted_bounds (f g : Z → Q) (l : list Z) (lo hi : Q) :
  Forall (fun k => 0 <= g k /\ lo <= f k <= hi)%Q l →
  (lo * sumQ (map g l) <= sumQ (map (fun k => f k * g k) l)
   <= hi * sumQ (map g l))%Q.
Proof.
  induction 1 as [|k l (Hg & Hlo & Hhi) _ IH]; simpl.
  - split; lra.
  - assert (lo * g k <= f k * g k)%Q by (apply Qmult_le_compat_r; assumption).
    assert (f k * g k <= hi * g k)%Q by (apply Qmult_le_compat_r; assumption).
    split; lra.
Qed.

Lemma weighted_strict (f g : Z → Q) (l : list Z) (hi : Q) :
  Forall (fun k => 0 <= g k /\ f k <= hi)%Q l →
  Exists (fun k => 0 < g k /\ f k < hi)%Q l →
  (sumQ (map (fun k => f k * g k) l) < hi * sumQ (map g l))%Q.
Proof.
  intros Hall Hex. induction Hall as [|k l (Hg & Hhi) Hall IH]; simpl.
  - inversion Hex.
  - assert (f k * g k <= hi * g k)%Q by (apply Qmult_le_compat_r; assumption).
    assert (Hrest : (sumQ (map (fun k => f k * g k) l) <= hi * sumQ (map g l))%Q).
    { clear -Hall. induction Hall as [|j l (Hg & Hhi) _ IH]; simpl; [lra|].
      assert (f j * g j <= hi * g j)%Q by (apply Qmult_le_compat_r; assumption).
      lra. }
    inversion Hex as [? ? (Hg0 & Hlt)|? ? Hex']; subst.
    + assert (f k * g k < hi * g k)%Q by (apply Qmult_lt_compat_r; assumption).
      lra.
    + specialize (IH Hex'). lra.
Qed.

Lemma map_getQ_range (K : list Q) (r : Z) :
  (0 <= r)%Z → length K = Z.to_nat (2 * r + 1) →
  map (fun k => getQ K (k + r)) (range (- r) r) = K.
Proof.
  intros Hr Hlen. unfold range. rewrite map_map.
  replace (Z.to_nat (r - - r + 1)) with (length K) by lia.
  clear Hlen. 
  assert (G : ∀ (L : list Q) (n : nat),
            map (fun i => nth (n + i) (L) 0%Q) (seq 0 (length L - n)) = drop n L).
  { intros L n. apply list_eq. intros i.
    rewrite list_lookup_fmap, lookup_drop.
    destruct (Nat.lt_ge_cases i (length L - n)) as [H|H].
    - rewrite lookup_seq_lt by assumption. simpl.
      destruct (lookup_lt_is_Some_2 L (n + i) ltac:(lia)) as [x Hx].
      rewrite Hx. f_equal. now apply nth_lookup_Some with (d := 0%Q) in Hx.
    - rewrite lookup_seq_ge by assumption. simpl.
      symmetry. apply lookup_ge_None_2. lia. }
  specialize (G K 0). rewrite Nat.sub_0_r in G. simpl in G.
  rewrite <- G at 2. apply map_ext. intros i. unfold getQ.
  f_equal. lia.
Qed.

Variable exp : Q → Q.
Hypothesis exp_pos : ∀ x, (0 < exp x)%Q.

Lemma kernelOf_length sigma :
  length (kernelOf exp sigma) = Z.to_nat (2 * Qceiling (3 * sigma) + 1).
Proof.
  unfold kernelOf, range. cbv zeta. rewrite !length_map, length_seq. lia.
Qed.

Lemma kernelOf_pos sigma :
  (0 <= Qceiling (3 * sigma))%Z →
  Forall (fun w => 0 < w)%Q (kernelOf exp sigma) ∧ (sumQ (kernelOf exp sigma) == 1)%Q.
Proof.
  intros Hr. unfold kernelOf.
  set (raw := map _ (range 0 _)).
  assert (Hraw : Forall (fun w => 0 < w)%Q raw).
  { unfold raw. apply Forall_map, Forall_forall. intros; apply exp_pos. }
  assert (Hne : raw ≠ []).
  { intros E. apply (f_equal length) in E. unfold raw, range in E.
    rewrite !length_map, length_seq in E. simpl in E. lia. }
  pose proof (sumQ_pos raw Hne Hraw) as Hsum.
  pose proof (fold_left_Qplus raw 0) as Hk.
  set (ksum := fold_left Qplus raw 0%Q) in *.
  assert (0 < ksum)%Q as Hkpos by (rewrite Hk; lra).
  split.
  - apply Forall_map. eapply Forall_impl; [exact Hraw|].
    intros w Hw. simpl. apply Qlt_shift_div_l; [exact Hkpos | rewrite Qmult_0_l; exact Hw].
  - rewrite sumQ_scale. rewrite Hk in *. field. lra.
Qed.

Lemma getQ_nonneg (K : list Q) j :
  Forall (fun w => 0 < w)%Q K → (0 <= getQ K j)%Q.
Proof.
  intros H. unfold getQ.
  destruct (nth_in_or_default (Z.to_nat j) K 0%Q) as [Hin| ->]; [|apply Qle_refl].
  rewrite Forall_forall in H. apply Qlt_le_weak, H, list_elem_of_In, Hin.
Qed.

Lemma getQ_pos (K : list Q) j :
  Forall (fun w => 0 < w)%Q K → (0 <= j)%Z → Z.to_nat j < length K →
  (0 < getQ K j)%Q.
Proof.
  intros H Hj Hlen. unfold getQ.
  rewrite Forall_forall in H. apply H, list_elem_of_In, nth_In, Hlen.
Qed.

Lemma kernel_weights_sum :
  (sumQ (map (fun k => getQ (kernelOf exp 25) (k + 75)) (range (- (75)) 75)) == 1)%Q.
Proof.
  rewrite (map_getQ_range (kernelOf exp 25) 75) by (try lia; apply kernelOf_length).
  apply kernelOf_pos. discriminate.
Qed.

(** The background of a bright pixel next to a darker one lies strictly
    below the pixel's own value. *)
Lemma blur_two_pixels (a b : Q) :
  (0 <= b)%Q → (b < a)%Q →
  (0 <= getQ (_gaussianBlur exp [a; b] 2 1 25) 0 < a)%Q.
Proof.
  intros Hb Hab.
  destruct (kernelOf_pos 25 ltac:(discriminate)) as [Kpos _].
  pose proof kernel_weights_sum as Ksum.
  pose (R := range (- (75)) 75).
  pose (g := fun k : Z => getQ (kernelOf exp 25) (k + 75)).
  pose (fh := fun x k : Z =>
                getQ [a; b] (0 * Z.of_nat 2 + Z.min (Z.max (x + k) 0) (Z.of_nat 2 - 1))).
  pose (T := fun x : Z => fold_left (fun acc k => (acc + fh x k * g k)%Q) R 0%Q).
  pose (fv := fun k : Z =>
                getQ [T 0%Z; T 1%Z]
                     (Z.min (Z.max (0 + k) 0) (Z.of_nat 1 - 1) * Z.of_nat 2 + 0)).
  assert (E : getQ (_gaussianBlur exp [a; b] 2 1 25) 0
              = fold_left (fun acc k => (acc + fv k * g k)%Q) R 0%Q) by reflexivity.
  rewrite E. clear E.
  fold R g in Ksum.
  assert (Hg : ∀ k, (0 <= g k)%Q) by (intros k; apply getQ_nonneg, Kpos).
  assert (Hfh : ∀ k, (0 <= fh 0%Z k <= a)%Q).
  { intros k. unfold fh, getQ.
    destruct (Z.to_nat _) as [|[|n]]; simpl; try lra. destruct n; simpl; lra. }
  assert (HT0 : (0 <= T 0%Z < a)%Q).
  { unfold T. rewrite (fold_left_weighted (fh 0%Z) g). split.
    - assert (0 <= sumQ (map (fun k => fh 0%Z k * g k) R))%Q; [|lra].
      apply sumQ_nonneg, Forall_map, Forall_forall. intros k _. simpl.
      apply Qmult_le_0_compat; [apply Hfh | apply Hg].
    - assert (sumQ (map (fun k => fh 0%Z k * g k) R) < a * sumQ (map g R))%Q as Hlt;
        [|rewrite Ksum in Hlt; lra].
      apply weighted_strict.
      + apply Forall_forall. intros k _. split; [apply Hg | apply Hfh].
      + apply Exists_exists. exists 1%Z. split.
        * apply list_elem_of_fmap. exists 76. split; [reflexivity|].
          apply elem_of_seq. simpl. lia.
        * split; [|exact Hab].
          apply getQ_pos; [exact Kpos | lia |].
          rewrite kernelOf_length. apply Nat.ltb_lt. reflexivity. }
  assert (Hfv : ∀ k, fv k = T 0%Z).
  { intros k. unfold fv, getQ.
    replace (Z.to_nat _) with 0; [reflexivity|]. lia. }
  rewrite (fold_left_weighted fv g).
  pose proof (weighted_bounds fv g R (T 0%Z) (T 0%Z)) as [B1 B2].
  { apply Forall_forall. intros k _. rewrite Hfv.
    split; [apply Hg | split; apply Qle_refl]. }
  rewrite Ksum in B1, B2. lra.
Qed.

(** Where the background is darker than the pixel, the stored value is
    strictly above the value of the specification's formula. *)
Lemma normPixel_exceeds (gray bg : Q) :
  (0 <= bg)%Q → (bg < gray)%Q → (gray < 255)%Q →
  (specNormPixel gray bg < normPixel gray bg)%Q.
Proof.
  intros Hbg Hlt Hg. unfold normPixel, specNormPixel.
  assert (Hn : (255 < (gray + 1) / (bg + 1) * 255)%Q).
  { assert (1 < (gray + 1) / (bg + 1))%Q; [|lra].
    apply Qlt_shift_div_l; lra. }
  set (n := ((gray + 1) / (bg + 1) * 255)%Q) in *.
  rewrite (Q.max_r 0 n) by lra.
  rewrite (Q.min_l 255 n) by lra.
  rewrite Q.max_r by lra.
  apply Q.min_glb_lt; lra.
Qed.

Lemma norm_two_pixel_image :
  let img := {| data := [200; 200; 200; 255; 0; 0; 0; 255]%Z;
                width := 2; height := 1 |} in
  (specNormPixel (getQ (grayOf img) 0)
                 (getQ (_gaussianBlur exp (grayOf img) 2 1 25) 0)
   < getQ (normOf exp img) 0)%Q.
Proof.
  intros img.
  change 0%Z with (Z.of_nat 0) at 3.
  rewrite (normOf_pixel exp img 0) by (simpl; lia).
  change (Z.of_nat 0) with 0%Z. change (width img) with 2. change (height img) with 1.
  assert (E : ∃ a b, grayOf img = [a; b] ∧ (0 <= b)%Q ∧ (b < a)%Q ∧ (a < 255)%Q).
  { eexists _, _. split; [reflexivity|]. repeat split; reflexivity || discriminate. }
  destruct E as (a & b & -> & Hb & Hab & Ha).
  pose proof (blur_two_pixels a b Hb Hab) as [B1 B2].
  change (getQ [a; b] 0) with a.
  apply normPixel_exceeds; lra.
Qed.

End BlurFacts.

Section FilterClaims.

Import Filter.

(** C5, as the specification states it: for a pixel of grayscale 200 on
    a background of 50 the code stores 255, the stated formula gives
    227.5. *)
Lemma normPixel_not_clamped_first :
  ¬ (normPixel 200 50 == specNormPixel 200 50)%Q.
Proof. vm_compute. discriminate. Qed.

(** C5.  For every pixel the normalized value (gray+1)/(background+1)
    x 255 is blended, unclamped, with the grayscale, and the blend is
    clamped to [0,255]: the entry of [norm] is min(255, max(0,
    0.5 normalized + 0.5 gray)).  It lies in [0,255], and equals
    0.5 min(255, max(0, normalized)) + 0.5 gray whenever the normalized
    value and the grayscale lie in [0,255]. *)
Theorem norm_blend_then_clamp exp img i :
  i < width img * height img →
  let gray := getQ (grayOf img) (Z.of_nat i) in
  let bg :=
    getQ (_gaussianBlur exp (grayOf img) (width img) (height img) 25) (Z.of_nat i) in
  let normalized := ((gray + 1) / (bg + 1) * 255)%Q in
  let norm := getQ (normOf exp img) (Z.of_nat i) in
  (norm == Qmin 255 (Qmax 0 ((1 # 2) * normalized + (1 # 2) * gray)))%Q ∧
  (0 <= norm <= 255)%Q ∧
  ((0 <= normalized <= 255)%Q → (0 <= gray <= 255)%Q →
   (norm == (1 # 2) * Qmin 255 (Qmax 0 normalized) + (1 # 2) * gray)%Q).
Proof.
  intros Hi gray bg normalized norm.
  assert (norm = normPixel gray bg) as -> by now apply normOf_pixel.
  split; [apply normPixel_clamped_blend|].
  split; [apply normPixel_range|].
  intros Hn Hg. now apply normPixel_agrees.
Qed.

Lemma norm_blend_then_clamp_witness :
  let exp := fun _ : Q => 1%Q in
  let img := {| data := [200; 200; 200; 255]%Z; width := 1; height := 1 |} in
  let gray := getQ (grayOf img) (Z.of_nat 0) in
  let bg :=
    getQ (_gaussianBlur exp (grayOf img) (width img) (height img) 25) (Z.of_nat 0) in
  let normalized := ((gray + 1) / (bg + 1) * 255)%Q in
  let norm := getQ (normOf exp img) (Z.of_nat 0) in
  (norm == Qmin 255 (Qmax 0 ((1 # 2) * normalized + (1 # 2) * gray)))%Q ∧
  (0 <= norm <= 255)%Q ∧
  ((0 <= normalized <= 255)%Q → (0 <= gray <= 255)%Q →
   (norm == (1 # 2) * Qmin 255 (Qmax 0 normalized) + (1 # 2) * gray)%Q).
Proof.
  apply (norm_blend_then_clamp (fun _ : Q => 1%Q)
           {| data := [200; 200; 200; 255]%Z; width := 1; height := 1 |} 0).
  simpl. lia.
Defined.

(** C7.  Every pixel of the filter's output has equal red, green and
    blue values, each in [0,255], and alpha 255; the output has the
    width and height of the input and four entries per pixel. *)
Theorem removeBleeding_gray_opaque exp img i :
  i < width img * height img →
  let out := removeBleeding exp img in
  width out = width img ∧ height out = height img ∧
  length (data out) = 4 * (width img * height img) ∧
  ∃ v, (0 ≤ v ≤ 255)%Z ∧
       data out !! (4 * i) = Some v ∧
       data out !! (4 * i + 1) = Some v ∧
       data out !! (4 * i + 2) = Some v ∧
       data out !! (4 * i + 3) = Some 255%Z.
Proof.
  intros Hi out.
  split; [reflexivity|]. split; [reflexivity|].
  set (denoised := _gaussianBlur exp (normOf exp img) (width img) (height img) 2).
  set (g := fun k : nat =>
              let v := round (getQ denoised (Z.of_nat k)) in
              (toUint8Clamp v, toUint8Clamp v, toUint8Clamp v, toUint8Clamp 255)).
  assert (Hout : data out =
            flat_map (fun x => let '(a, b, c, d) := g x in [a; b; c; d])
                     (seq 0 (width img * height img))) by reflexivity.
  rewrite Hout. split.
  - now rewrite flat_map_quad_length, length_seq.
  - exists (toUint8Clamp (round (getQ denoised (Z.of_nat i)))).
    split; [apply toUint8Clamp_range|].
    pose proof (flat_map_quad_lookup g (seq 0 (width img * height img)) i) as L.
    rewrite lookup_seq_lt in L by assumption.
    replace (4 * i) with (4 * i + 0) at 1 by lia.
    rewrite !L by lia. repeat split; reflexivity.
Qed.

Lemma removeBleeding_gray_opaque_witness :
  let exp := fun _ : Q => 1%Q in
  let img := {| data := [12; 200; 90; 255]%Z; width := 1; height := 1 |} in
  let out := removeBleeding exp img in
  width out = width img ∧ height out = height img ∧
  length (data out) = 4 * (width img * height img) ∧
  ∃ v, (0 ≤ v ≤ 255)%Z ∧
       data out !! (4 * 0) = Some v ∧
       data out !! (4 * 0 + 1) = Some v ∧
       data out !! (4 * 0 + 2) = Some v ∧
       data out !! (4 * 0 + 3) = Some 255%Z.
Proof.
  apply (removeBleeding_gray_opaque (fun _ : Q => 1%Q)
           {| data := [12; 200; 90; 255]%Z; width := 1; height := 1 |} 0).
  simpl. lia.
Defined.

End FilterClaims.


(** * Further properties of the code *)

(** ** The server's answer *)

Section ServerProperties.

Lemma castlingField_values rank1 rank8 : castlingField rank1 rank8 ∈ castlingValues.
Proof.
  unfold castlingField, castlingOf, castlingValues.
  repeat case_decide; simpl in *; try congruence;
    repeat (first [apply list_elem_of_here | apply list_elem_of_further]).
Qed.

(** X1.  Completion always yields a string of at least six fields, keeps
    the placement, and changes nothing when applied again. *)
Theorem completion_shape raw :
  6 ≤ length (fields (complete raw)) ∧
  placementOf (complete raw) = placementOf raw ∧
  complete (complete raw) = complete raw.
Proof.
  split; [apply complete_fields_length|].
  split; [apply complete_placement | apply complete_idempotent].
Qed.

(** X2.  A string without a space (a placement alone) is completed by
    the suffix w - - 0 1: the result has exactly the six fields
    placement, w, -, -, 0, 1. *)
Theorem completion_placement_only raw :
  includes " " raw = false →
  complete raw = raw +:+ " w - - 0 1" ∧
  fields (complete raw) = [raw; "w"; "-"; "-"; "0"; "1"].
Proof.
  intros H. assert (F : fields raw = [raw]) by now apply split_no_occurrence.
  split.
  - unfold complete. fold (fields raw). now rewrite F.
  - apply complete_one_field. now rewrite F.
Qed.

Lemma completion_placement_only_witness :
  complete "8/8/8/8/8/2k5/2P5/2K5" = "8/8/8/8/8/2k5/2P5/2K5" +:+ " w - - 0 1" ∧
  fields (complete "8/8/8/8/8/2k5/2P5/2K5")
  = ["8/8/8/8/8/2k5/2P5/2K5"; "w"; "-"; "-"; "0"; "1"].
Proof. apply (completion_placement_only "8/8/8/8/8/2k5/2P5/2K5"). reflexivity. Defined.

Lemma handler_cases recognised :
  match handler recognised with
  | Status422 => recognised = None ∨ recognised = Some ""
  | Status500 e =>
      e = TypeError ∧
      ∃ raw, recognised = Some raw ∧ raw ≠ "" ∧
             length (split "/" (placementOf raw)) < 8
  | Status200 fen =>
      ∃ raw, recognised = Some raw ∧ raw ≠ "" ∧
             8 ≤ length (split "/" (placementOf raw)) ∧
             fen ≠ "" ∧ 6 ≤ length (fields fen) ∧
             placementOf fen = placementOf raw
  end.
Proof.
  unfold handler. destruct recognised as [raw|]; [|now left].
  case_decide as Hraw; [right; now subst|].
  unfold postProcess.
  pose proof (complete_fields_length raw) as Hlen.
  destruct (inferCastling (complete raw)) as [fen|e] eqn:E.
  - exists raw. split; [reflexivity|]. split; [assumption|].
    pose proof (inferCastling_returns _ _ E) as H8.
    rewrite complete_placement in H8. split; [exact H8|].
    split; [eapply inferCastling_nonempty; exact E|].
    split.
    + rewrite (inferCastling_length (complete raw) fen); [exact Hlen | lia | exact E].
    + rewrite (inferCastling_placement (complete raw) fen); [|lia | exact E].
      apply complete_placement.
  - destruct (Nat.lt_ge_cases (length (split "/" (placementOf (complete raw)))) 8)
      as [Hlt|Hge].
    + rewrite (inferCastling_throws _ Hlt) in E. injection E as <-.
      split; [reflexivity|]. exists raw.
      rewrite complete_placement in Hlt. auto.
    + destruct (inferCastling_ok _ Hge) as (? & ? & _ & _ & E'). congruence.
Qed.

(** X3.  The handler answers 422 exactly when the recogniser gives no
    string or an empty one, 500 (a TypeError) exactly when the placement
    of a non-empty string has fewer than eight ranks, and 200 otherwise;
    the descriptor it then returns is not empty, has at least six fields
    and the placement of the recogniser's string. *)
Theorem handler_status recognised :
  match handler recognised with
  | Status422 => recognised = None ∨ recognised = Some ""
  | Status500 e =>
      e = TypeError ∧
      ∃ raw, recognised = Some raw ∧ raw ≠ "" ∧
             length (split "/" (placementOf raw)) < 8
  | Status200 fen =>
      ∃ raw, recognised = Some raw ∧ raw ≠ "" ∧
             8 ≤ length (split "/" (placementOf raw)) ∧
             fen ≠ "" ∧ 6 ≤ length (fields fen) ∧
             placementOf fen = placementOf raw
  end.
Proof. apply handler_cases. Qed.

(** X4.  Whenever castling inference returns on a descriptor of at
    least three fields, the castling field of its output is the marker
    [-] or a selection of the letters K, Q, k, q in this order. *)
Theorem castling_field_syntax fen out :
  3 ≤ length (fields fen) →
  inferCastling fen = Ok out →
  ∃ castling, fields out !! 2 = Some castling ∧ castling ∈ castlingValues.
Proof.
  intros Hlen Hout.
  destruct (inferCastling_fields fen out Hlen Hout) as (r8 & r1 & _ & _ & F).
  exists (castlingField r1 r8). split.
  - rewrite F. apply list_lookup_insert_eq. lia.
  - apply castlingField_values.
Qed.

Lemma castling_field_syntax_witness :
  ∃ castling,
    fields "4k2r/8/8/8/8/8/8/R3K3 b Qk - 3 20" !! 2 = Some castling ∧
    castling ∈ castlingValues.
Proof.
  apply (castling_field_syntax "4k2r/8/8/8/8/8/8/R3K3 b - - 3 20").
  - simpl. lia.
  - vm_compute. reflexivity.
Defined.

(** X5.  Castling inference is idempotent: applied to its own output
    (on a descriptor of at least three fields) it returns that output. *)
Theorem castling_inference_idempotent fen out :
  3 ≤ length (fields fen) →
  inferCastling fen = Ok out →
  inferCastling out = Ok out.
Proof.
  intros Hlen Hout.
  destruct (inferCastling_fields fen out Hlen Hout) as (r8 & r1 & H8 & H1 & F).
  pose proof (inferCastling_placement fen out Hlen Hout) as Hp.
  pose proof (inferCastling_returns _ _ Hout) as Hranks.
  rewrite <- Hp in Hranks.
  destruct (inferCastling_ok out Hranks) as (r8' & r1' & H8' & H1' & E).
  rewrite Hp in H8', H1'.
  assert (r8' = r8) by congruence. assert (r1' = r1) by congruence. subst r8' r1'.
  rewrite E. f_equal.
  rewrite arraySet_in_range by (rewrite F, length_insert; lia).
  rewrite F, list_insert_insert_eq, <- F.
  apply join_split.
Qed.

Lemma castling_inference_idempotent_witness :
  inferCastling "r3k2r/8/8/8/8/8/8/R3K2R w KQkq - 0 1"
  = Ok "r3k2r/8/8/8/8/8/8/R3K2R w KQkq - 0 1".
Proof.
  apply (castling_inference_idempotent "r3k2r/8/8/8/8/8/8/R3K2R w - - 0 1").
  - simpl. lia.
  - vm_compute. reflexivity.
Defined.

End ServerProperties.

(** ** The orientation decision *)

Section OrientationProperties.






(** X7.  What the server does to the recogniser's string does not
    change the client's decision: the descriptor the handler returns is
    judged flipped exactly when the recogniser's string is. *)
Theorem orientation_after_server raw fen :
  postProcess raw = Ok fen → isFlipped fen = isFlipped raw.
Proof.
  unfold postProcess. intros E.
  pose proof (complete_fields_length raw) as Hlen.
  apply isFlipped_placement.
  rewrite (inferCastling_placement (complete raw) fen); [|lia | exact E].
  apply complete_placement.
Qed.

Lemma orientation_after_server_witness :
  isFlipped "RNBKQBNR/PPPPPPPP/8/8/8/8/pppppppp/rnbkqbnr w - - 0 1"
  = isFlipped "RNBKQBNR/PPPPPPPP/8/8/8/8/pppppppp/rnbkqbnr".
Proof.
  apply (orientation_after_server "RNBKQBNR/PPPPPPPP/8/8/8/8/pppppppp/rnbkqbnr").
  vm_compute. reflexivity.
Defined.

(** X8.  When neither king is located and the client's fallback judges
    the board flipped, the test of the earlier handler judges it flipped
    as well: the 65% bars are the stricter test. *)
Theorem fallback_stricter_than_legacy fen :
  located "K" (rowsOf fen) None →
  located "k" (rowsOf fen) None →
  isFlipped fen = true → isFlippedLegacy fen = true.
Proof.
  intros HK Hk. unfold isFlipped, isFlippedLegacy.
  rewrite (findIndex_located _ _ _ HK), (findIndex_located _ _ _ Hk). simpl.
  set (wTop := countMatches isUpper (join "" (take 4 (rowsOf fen)))).
  set (bTop := countMatches isLower (join "" (take 4 (rowsOf fen)))).
  set (wBot := countMatches isUpper (join "" (drop 4 (rowsOf fen)))).
  set (bBot := countMatches isLower (join "" (drop 4 (rowsOf fen)))).
  rewrite !andb_true_iff, fraction_exceeds.
  rewrite (Nat.add_comm wBot bBot), fraction_exceeds.
  rewrite !exceeds65Percent_nat by lia.
  rewrite !Nat.ltb_lt. lia.
Qed.

Lemma fallback_stricter_than_legacy_witness :
  isFlippedLegacy "RNBQ1BNR/PPPPPPPP/8/8/8/8/pppppppp/rnbq1bnr" = true.
Proof.
  apply (fallback_stricter_than_legacy "RNBQ1BNR/PPPPPPPP/8/8/8/8/pppppppp/rnbq1bnr");
    reflexivity.
Defined.

End OrientationProperties.

(** ** The blur and the filter *)

Section BlurProperties.

Import Filter.

Lemma elem_of_range lo hi k : k ∈ range lo hi ↔ (lo ≤ k ≤ hi)%Z.
Proof.
  unfold range. rewrite list_elem_of_fmap. split.
  - intros (i & -> & Hi). apply elem_of_seq in Hi. lia.
  - intros H. exists (Z.to_nat (k - lo)). split; [lia|].
    apply elem_of_seq. lia.
Qed.

Lemma range_length lo hi : length (range lo hi) = Z.to_nat (hi - lo + 1).
Proof. unfold range. now rewrite length_map, length_seq. Qed.

Lemma Forall_flat_map {A B} (P : B → Prop) (f : A → list B) (l : list A) :
  (∀ x, x ∈ l → Forall P (f x)) → Forall P (flat_map f l).
Proof.
  induction l as [|x l IH]; intros H; simpl; [constructor|].
  apply Forall_app. split.
  - apply H. apply list_elem_of_here.
  - apply IH. intros y Hy. apply H. now apply list_elem_of_further.
Qed.

Lemma flat_map_length_const {A B} (f : A → list B) (l : list A) n :
  (∀ x, length (f x) = n) → length (flat_map f l) = length l * n.
Proof.
  intros H. induction l as [|x l IH]; [reflexivity|].
  simpl. rewrite length_app, H, IH. lia.
Qed.

Lemma getQ_Forall (P : Q → Prop) (l : list Q) i :
  Forall P l → (0 ≤ i)%Z → Z.to_nat i < length l → P (getQ l i).
Proof.
  intros H _ Hlen. unfold getQ. rewrite Forall_forall in H.
  apply H, list_elem_of_In, nth_In, Hlen.
Qed.

Variable exp : Q → Q.
Hypothesis exp_pos : ∀ x, (0 < exp x)%Q.

Lemma kernel_window_sum sigma :
  (0 ≤ Qceiling (3 * sigma))%Z →
  (sumQ (map (fun k => getQ (kernelOf exp sigma) (k + Qceiling (3 * sigma)))
             (range (- Qceiling (3 * sigma)) (Qceiling (3 * sigma)))) == 1)%Q.
Proof.
  intros Hr.
  rewrite (map_getQ_range (kernelOf exp sigma) (Qceiling (3 * sigma)))
    by (try assumption; apply kernelOf_length).
  now apply kernelOf_pos.
Qed.

(** One pass of the blur: a weighted mean of the samples it reads. *)
Lemma window_bounds sigma (f : Z → Q) (lo hi : Q) :
  (0 ≤ Qceiling (3 * sigma))%Z →
  (∀ k, lo <= f k <= hi)%Q →
  (lo <= fold_left (fun acc k =>
                      acc + f k * getQ (kernelOf exp sigma) (k + Qceiling (3 * sigma)))
                   (range (- Qceiling (3 * sigma)) (Qceiling (3 * sigma))) 0
   <= hi)%Q.
Proof.
  intros Hr Hf.
  destruct (kernelOf_pos exp exp_pos sigma Hr) as [Kpos _].
  pose proof (kernel_window_sum sigma Hr) as Ksum.
  pose (g := fun k : Z => getQ (kernelOf exp sigma) (k + Qceiling (3 * sigma))).
  change (lo <= fold_left (fun acc k => acc + f k * g k)
                   (range (- Qceiling (3 * sigma)) (Qceiling (3 * sigma))) 0
          <= hi)%Q.
  change (sumQ (map g (range (- Qceiling (3 * sigma)) (Qceiling (3 * sigma)))) == 1)%Q
    in Ksum.
  rewrite (fold_left_weighted f g).
  pose proof (weighted_bounds f g
                (range (- Qceiling (3 * sigma)) (Qceiling (3 * sigma))) lo hi) as [B1 B2].
  { apply Forall_forall. intros k _. split; [|apply Hf].
    apply getQ_nonneg, Kpos. }
  rewrite Ksum in B1, B2. lra.
Qed.

Lemma pass_Forall sigma (src : list Q) (idx : Z → Z → Z → Z) (w h : nat) (lo hi : Q) :
  (0 ≤ Qceiling (3 * sigma))%Z →
  Forall (fun v => lo <= v <= hi)%Q src →
  (∀ y x k, (0 ≤ y < Z.of_nat h)%Z → (0 ≤ x < Z.of_nat w)%Z →
            (0 ≤ idx y x k)%Z ∧ Z.to_nat (idx y x k) < length src) →
  Forall (fun v => lo <= v <= hi)%Q
    (flat_map (fun y =>
       map (fun x =>
              fold_left (fun acc k =>
                           (acc + getQ src (idx y x k)
                                  * getQ (kernelOf exp sigma) (k + Qceiling (3 * sigma)))%Q)
                        (range (- Qceiling (3 * sigma)) (Qceiling (3 * sigma))) 0%Q)
           (range 0 (Z.of_nat w - 1)))
       (range 0 (Z.of_nat h - 1))).
Proof.
  intros Hr Hsrc Hidx.
  apply Forall_flat_map. intros y Hy. apply elem_of_range in Hy.
  apply Forall_map, Forall_forall. intros x Hx. apply elem_of_range in Hx.
  simpl.
  apply (window_bounds sigma (fun k => getQ src (idx y x k)) lo hi Hr).
  intros k. destruct (Hidx y x k ltac:(lia) ltac:(lia)) as [H0 H1].
  now apply (getQ_Forall (fun v => lo <= v <= hi)%Q).
Qed.

Lemma pass_length (f : Z → Z → Q) (w h : nat) :
  length (flat_map (fun y => map (fun x => f y x) (range 0 (Z.of_nat w - 1)))
                   (range 0 (Z.of_nat h - 1))) = w * h.
Proof.
  rewrite (flat_map_length_const _ _ w).
  - rewrite range_length. lia.
  - intros y. rewrite length_map, range_length. lia.
Qed.

Lemma gaussianBlur_length (src : list Q) (w h : nat) sigma :
  length (_gaussianBlur exp src w h sigma) = w * h.
Proof. unfold _gaussianBlur. cbv zeta. apply pass_length. Qed.

Lemma gaussianBlur_Forall (src : list Q) (w h : nat) sigma (lo hi : Q) :
  (0 ≤ Qceiling (3 * sigma))%Z →
  length src = w * h →
  Forall (fun v => lo <= v <= hi)%Q src →
  Forall (fun v => lo <= v <= hi)%Q (_gaussianBlur exp src w h sigma).
Proof.
  intros Hr Hlen Hsrc. unfold _gaussianBlur. cbv zeta.
  match goal with
  | |- Forall _ (flat_map (fun y => map (fun x => fold_left
                    (fun acc k => (acc + getQ ?tmp _ * _)%Q) _ _) _) _) =>
      set (t := tmp)
  end.
  assert (Ht : Forall (fun v => lo <= v <= hi)%Q t ∧ length t = w * h).
  { split; [|apply pass_length].
    apply (pass_Forall sigma src
             (fun y x k => (y * Z.of_nat w
                            + Z.min (Z.max (x + k) 0) (Z.of_nat w - 1))%Z));
      try assumption.
    intros y x k Hy Hx. rewrite Hlen. split; [nia|]. nia. }
  destruct Ht as [Ht Htl].
  apply (pass_Forall sigma t
           (fun y x k => (Z.min (Z.max (y + k) 0) (Z.of_nat h - 1) * Z.of_nat w + x)%Z));
    try assumption.
  intros y x k Hy Hx. rewrite Htl. split; [nia|]. nia.
Qed.

End BlurProperties.

Section FilterProperties.

Import Filter.

Lemma round_byte (x : Q) : (0 <= x <= 255)%Q → (0 ≤ round x ≤ 255)%Z.
Proof.
  intros [H0 H1]. unfold round. split.
  - change 0%Z with (Qfloor 0). apply Qfloor_resp_le. lra.
  - change 255%Z with (Qfloor (255 + (1 # 2))). apply Qfloor_resp_le. lra.
Qed.

Lemma normOf_length exp img : length (normOf exp img) = width img * height img.
Proof. unfold normOf. now rewrite length_map, length_seq. Qed.

Lemma normOf_Forall exp img :
  Forall (fun v => 0 <= v <= 255)%Q (normOf exp img).
Proof.
  unfold normOf. apply Forall_map, Forall_forall. intros i _. simpl.
  apply normPixel_range.
Qed.

Lemma grayOf_length img : length (grayOf img) = width img * height img.
Proof. unfold grayOf. now rewrite length_map, length_seq. Qed.

Lemma gray_level (v : Z) :
  ((299 # 1000) * inject_Z v + (587 # 1000) * inject_Z v + (114 # 1000) * inject_Z v
   == inject_Z v)%Q.
Proof. ring. Qed.

(** A pixel on a background of its own level. *)
Lemma normPixel_flat (g b c : Q) :
  (c <= g <= c)%Q → (c <= b <= c)%Q → (0 <= c <= 255)%Q →
  (normPixel g b == (255 # 2) + c * (1 # 2))%Q.
Proof.
  intros Hg Hb Hc.
  assert (g == c)%Q as Eg by lra. assert (b == c)%Q as Eb by lra.
  unfold normPixel.
  assert ((g + 1) / (b + 1) * 255 == 255)%Q as ->.
  { rewrite Eg, Eb. field. lra. }
  rewrite Eg.
  rewrite Q.max_r by lra. rewrite Q.min_r by lra. ring.
Qed.

(** X9.  At the two standard deviations the filter passes, 25 and 2,
    and for a positive exponential, the kernel has 151 and 13 weights, all
    positive, and in exact arithmetic they sum to one. *)
Theorem kernel_normalised exp :
  (∀ x, 0 < exp x)%Q →
  (length (kernelOf exp 25) = 151 ∧
   Forall (fun w => 0 < w)%Q (kernelOf exp 25) ∧
   (sumQ (kernelOf exp 25) == 1)%Q) ∧
  (length (kernelOf exp 2) = 13 ∧
   Forall (fun w => 0 < w)%Q (kernelOf exp 2) ∧
   (sumQ (kernelOf exp 2) == 1)%Q).
Proof.
  intros Hexp. split.
  - split; [rewrite kernelOf_length; reflexivity|].
    apply kernelOf_pos; [assumption | discriminate].
  - split; [rewrite kernelOf_length; reflexivity|].
    apply kernelOf_pos; [assumption | discriminate].
Qed.

Lemma kernel_normalised_witness :
  (length (kernelOf (fun _ => 1%Q) 25) = 151 ∧
   Forall (fun w => 0 < w)%Q (kernelOf (fun _ => 1%Q) 25) ∧
   (sumQ (kernelOf (fun _ => 1%Q) 25) == 1)%Q) ∧
  (length (kernelOf (fun _ => 1%Q) 2) = 13 ∧
   Forall (fun w => 0 < w)%Q (kernelOf (fun _ => 1%Q) 2) ∧
   (sumQ (kernelOf (fun _ => 1%Q) 2) == 1)%Q).
Proof.
  apply (kernel_normalised (fun _ => 1%Q)). intros x. reflexivity.
Defined.

(** X11.  For a positive exponential the value the filter rounds for a
    pixel already lies in [0,255]: the store into the output array never
    clips, and the three colour entries of the pixel hold the rounded
    denoised value itself. *)
Theorem removeBleeding_never_clips exp img i :
  (∀ x, 0 < exp x)%Q →
  i < width img * height img →
  let denoised := _gaussianBlur exp (normOf exp img) (width img) (height img) 2 in
  let v := round (getQ denoised (Z.of_nat i)) in
  (0 ≤ v ≤ 255)%Z ∧
  data (removeBleeding exp img) !! (4 * i) = Some v ∧
  data (removeBleeding exp img) !! (4 * i + 1) = Some v ∧
  data (removeBleeding exp img) !! (4 * i + 2) = Some v.
Proof.
  intros Hexp Hi denoised v.
  assert (Hv : (0 ≤ v ≤ 255)%Z).
  { apply round_byte.
    apply (getQ_Forall (fun v => 0 <= v <= 255)%Q); [|lia|].
    - apply gaussianBlur_Forall; try assumption.
      + vm_compute. discriminate.
      + apply normOf_length.
      + apply normOf_Forall.
    - unfold denoised. rewrite gaussianBlur_length. lia. }
  split; [exact Hv|].
  pose (g := fun k : nat =>
               let v := round (getQ denoised (Z.of_nat k)) in
               (toUint8Clamp v, toUint8Clamp v, toUint8Clamp v, toUint8Clamp 255)).
  assert (Hout : data (removeBleeding exp img) =
            flat_map (fun x => let '(a, b, c, d) := g x in [a; b; c; d])
                     (seq 0 (width img * height img))) by reflexivity.
  rewrite Hout.
  pose proof (flat_map_quad_lookup g (seq 0 (width img * height img)) i) as L.
  rewrite lookup_seq_lt in L by assumption.
  replace (4 * i) with (4 * i + 0) at 1 by lia.
  rewrite !L by lia. simpl.
  fold v. replace (toUint8Clamp v) with v by (unfold toUint8Clamp; lia).
  repeat split; reflexivity.
Qed.

Lemma removeBleeding_never_clips_witness :
  let exp := fun _ : Q => 1%Q in
  let img := {| data := [12; 200; 90; 255]%Z; width := 1; height := 1 |} in
  let denoised := _gaussianBlur exp (normOf exp img) (width img) (height img) 2 in
  let v := round (getQ denoised (Z.of_nat 0)) in
  (0 ≤ v ≤ 255)%Z ∧
  data (removeBleeding exp img) !! (4 * 0) = Some v ∧
  data (removeBleeding exp img) !! (4 * 0 + 1) = Some v ∧
  data (removeBleeding exp img) !! (4 * 0 + 2) = Some v.
Proof.
  apply (removeBleeding_never_clips (fun _ : Q => 1%Q)
           {| data := [12; 200; 90; 255]%Z; width := 1; height := 1 |} 0).
  - intros x. reflexivity.
  - simpl. lia.
Defined.

(** X12.  On an image whose pixels all have red = green = blue = v, with
    v in [0,255], and for a positive exponential, background subtraction
    cancels: every blended value and every denoised value is
    127.5 + v / 2 (in exact arithmetic), so a uniform image is lifted
    towards mid-gray and stays uniform. *)
Theorem removeBleeding_uniform exp img (v : Z) i :
  (∀ x, 0 < exp x)%Q →
  (0 ≤ v ≤ 255)%Z →
  (∀ j, j < width img * height img →
        getZ (data img) (j * 4) = v ∧
        getZ (data img) (j * 4 + 1) = v ∧
        getZ (data img) (j * 4 + 2) = v) →
  i < width img * height img →
  (getQ (normOf exp img) (Z.of_nat i) == (255 # 2) + inject_Z v * (1 # 2))%Q ∧
  (getQ (_gaussianBlur exp (normOf exp img) (width img) (height img) 2) (Z.of_nat i)
   == (255 # 2) + inject_Z v * (1 # 2))%Q.
Proof.
  intros Hexp Hv Hpix Hi.
  set (c := inject_Z v).
  assert (Hc : (0 <= c <= 255)%Q).
  { unfold c, Qle. simpl. lia. }
  assert (Hgray : Forall (fun g => c <= g <= c)%Q (grayOf img)).
  { unfold grayOf. apply Forall_map, Forall_forall. intros j Hj.
    apply elem_of_seq in Hj. simpl.
    destruct (Hpix j ltac:(lia)) as (-> & -> & ->).
    fold c. pose proof (gray_level v) as G. fold c in G. rewrite G.
    split; apply Qle_refl. }
  assert (Hbg : Forall (fun g => c <= g <= c)%Q
                  (_gaussianBlur exp (grayOf img) (width img) (height img) 25)).
  { apply gaussianBlur_Forall; try assumption.
    - vm_compute. discriminate.
    - apply grayOf_length. }
  assert (Hnorm : Forall (fun n => (255 # 2) + c * (1 # 2) <= n
                                   <= (255 # 2) + c * (1 # 2))%Q (normOf exp img)).
  { unfold normOf. apply Forall_map, Forall_forall. intros j Hj.
    apply elem_of_seq in Hj. simpl.
    rewrite normPixel_flat with (c := c); try assumption.
    - split; apply Qle_refl.
    - apply (getQ_Forall (fun g => c <= g <= c)%Q); [assumption | lia |].
      rewrite grayOf_length. lia.
    - apply (getQ_Forall (fun g => c <= g <= c)%Q); [assumption | lia |].
      rewrite gaussianBlur_length. lia. }
  split.
  - assert ((255 # 2) + c * (1 # 2) <= getQ (normOf exp img) (Z.of_nat i)
            <= (255 # 2) + c * (1 # 2))%Q; [|lra].
    apply (getQ_Forall (fun n => (255 # 2) + c * (1 # 2) <= n
                                 <= (255 # 2) + c * (1 # 2))%Q); [assumption | lia |].
    rewrite normOf_length. lia.
  - assert ((255 # 2) + c * (1 # 2)
            <= getQ (_gaussianBlur exp (normOf exp img) (width img) (height img) 2)
                    (Z.of_nat i)
            <= (255 # 2) + c * (1 # 2))%Q; [|lra].
    apply (getQ_Forall (fun n => (255 # 2) + c * (1 # 2) <= n
                                 <= (255 # 2) + c * (1 # 2))%Q); [|lia|].
    + apply gaussianBlur_Forall; try assumption.
      * vm_compute. discriminate.
      * apply normOf_length.
    + rewrite gaussianBlur_length. lia.
Qed.

Lemma removeBleeding_uniform_witness :
  let exp := fun _ : Q => 1%Q in
  let img := {| data := [80; 80; 80; 255; 80; 80; 80; 255]%Z;
                width := 2; height := 1 |} in
  (getQ (normOf exp img) (Z.of_nat 1) == (255 # 2) + inject_Z 80 * (1 # 2))%Q ∧
  (getQ (_gaussianBlur exp (normOf exp img) (width img) (height img) 2) (Z.of_nat 1)
   == (255 # 2) + inject_Z 80 * (1 # 2))%Q.
Proof.
  apply (removeBleeding_uniform (fun _ : Q => 1%Q)
           {| data := [80; 80; 80; 255; 80; 80; 80; 255]%Z; width := 2; height := 1 |}
           80 1).
  - intros x. reflexivity.
  - lia.
  - intros j Hj. simpl in Hj.
    destruct j as [|[|j]]; [repeat split; reflexivity.. | lia].
  - simpl. lia.
Defined.

End FilterProperties.

(** ** Image resizing *)

Section ResizeProperties.

Import Resize.

Lemma round_quotient (a b c : Z) :
  (0 < c)%Z →
  Filter.round (inject_Z a * inject_Z b / inject_Z c) = ((2 * (a * b) + c) / (2 * c))%Z.
Proof.
  intros Hc. unfold Filter.round.
  destruct c as [|p|p]; try lia.
  assert (inject_Z a * inject_Z b / inject_Z (Z.pos p) + (1 # 2)
          == (2 * (a * b) + Z.pos p) # (2 * p))%Q as E.
  { unfold Qeq, Qdiv, Qinv, Qmult, Qplus, inject_Z. simpl. lia. }
  rewrite (Qfloor_comp _ _ E). reflexivity.
Qed.

Lemma resized_height (h m w : Z) :
  (0 < m < w)%Z → (0 ≤ h)%Z →
  let h' := ((2 * (h * m) + w) / (2 * w))%Z in
  (0 ≤ h' ≤ h)%Z ∧
  (2 * (h * m) - w < 2 * w * h' ≤ 2 * (h * m) + w)%Z ∧
  (h' = 0 ↔ 2 * (h * m) < w)%Z.
Proof.
  intros Hm Hh h'.
  pose proof (Z.div_mod (2 * (h * m) + w) (2 * w) ltac:(lia)) as D.
  pose proof (Z.mod_pos_bound (2 * (h * m) + w) (2 * w) ltac:(lia)) as B.
  fold h' in D. set (r := ((2 * (h * m) + w) mod (2 * w))%Z) in *.
  assert (0 ≤ h')%Z by (apply Z.div_pos; nia).
  repeat split; try nia.
Qed.

(** X13.  A file of 300000 bytes or more is re-encoded on a canvas whose
    width is the smaller of the image's width and the maximum width and
    whose height is the image's height scaled by the same factor and
    rounded to the nearest integer; the height never grows.  A smaller
    file is passed on as it is, whatever its dimensions. *)
Theorem compressImage_dimensions size w h maxWidth quality :
  (0 < maxWidth)%Z → (0 < w)%Z → (0 ≤ h)%Z →
  if (size <? 300000)%Z
  then compressImage size w h maxWidth quality = Original
  else ∃ w' h',
      compressImage size w h maxWidth quality = Jpeg w' h' quality ∧
      w' = Z.min w maxWidth ∧
      (0 ≤ h' ≤ h)%Z ∧
      (2 * (h * w') - w < 2 * w * h' ≤ 2 * (h * w') + w)%Z.
Proof.
  intros Hm Hw Hh. unfold compressImage.
  destruct (size <? 300000)%Z; [reflexivity|].
  destruct (Z.gtb_spec w maxWidth) as [Hgt|Hle].
  - rewrite round_quotient by assumption.
    destruct (resized_height h maxWidth w ltac:(lia) Hh) as (H1 & H2 & _).
    eexists _, _. split; [reflexivity|].
    rewrite Z.min_r by lia. repeat split; lia.
  - exists w, h. split; [reflexivity|].
    rewrite Z.min_l by lia. repeat split; nia.
Qed.

Lemma compressImage_dimensions_witness :
  ∃ w' h',
    compressImage 2500000 4032 3024 1024 (7 # 10) = Jpeg w' h' (7 # 10) ∧
    w' = Z.min 4032 1024 ∧
    (0 ≤ h' ≤ 3024)%Z ∧
    (2 * (3024 * w') - 4032 < 2 * 4032 * h' ≤ 2 * (3024 * w') + 4032)%Z.
Proof.
  apply (compressImage_dimensions 2500000 4032 3024 1024 (7 # 10)); lia.
Defined.

(** X14.  When a large file's image is wider than the maximum width, the
    canvas height is 0 exactly when twice the scaled height is below one
    pixel (2 height maxWidth < width): a strip that flat is resized to an
    empty canvas. *)
Theorem compressImage_flat_strip size w h maxWidth quality :
  (300000 ≤ size)%Z → (0 < maxWidth < w)%Z → (0 ≤ h)%Z →
  compressImage size w h maxWidth quality = Jpeg maxWidth 0 quality
  ↔ (2 * (h * maxWidth) < w)%Z.
Proof.
  intros Hs Hm Hh. unfold compressImage.
  destruct (Z.ltb_spec size 300000); [lia|].
  destruct (Z.gtb_spec w maxWidth); [|lia].
  rewrite round_quotient by lia.
  destruct (resized_height h maxWidth w Hm Hh) as (_ & _ & Hzero).
  split.
  - intros E. injection E as E. now apply Hzero.
  - intros E. apply Hzero in E. now rewrite E.
Qed.

Lemma compressImage_flat_strip_witness :
  compressImage 400000 4000 1 1024 (7 # 10) = Jpeg 1024 0 (7 # 10)
  ↔ (2 * (1 * 1024) < 4000)%Z.
Proof. apply (compressImage_flat_strip 400000 4000 1 1024 (7 # 10)); lia. Defined.

End ResizeProperties.

(** ** Turn toggling *)

Section TurnProperties.

Import Turn.

Lemma toggleTurn_unfold fen :
  6 ≤ length (fields fen) →
  toggleTurn fen = join " " (<[1:=other (fields fen !! 1)]> (fields fen)) ∧
  fields (toggleTurn fen) = <[1:=other (fields fen !! 1)]> (fields fen).
Proof.
  intros Hlen. unfold toggleTurn. fold (fields fen).
  set (c := other (fields fen !! 1)).
  rewrite arraySet_in_range by lia.
  assert (F : fields (join " " (<[1:=c]> (fields fen))) = <[1:=c]> (fields fen)).
  { apply split_join.
    - intros E. apply (f_equal length) in E. rewrite length_insert in E.
      simpl in E. lia.
    - apply Forall_insert; [apply split_no_sep|].
      unfold c, other. now case_decide. }
  unfold loadPosition. rewrite complete_full by (rewrite F, length_insert; lia).
  split; [reflexivity | exact F].
Qed.

(** X15.  On a descriptor of at least six fields (what the rules engine
    reports) the turn toggle changes the active-colour field only: it
    becomes b when it was w, and w in every other case. *)
Theorem toggleTurn_frame fen :
  6 ≤ length (fields fen) →
  ∃ colour,
    fields (toggleTurn fen) = <[1:=colour]> (fields fen) ∧
    (fields fen !! 1 = Some "w" → colour = "b") ∧
    (fields fen !! 1 ≠ Some "w" → colour = "w").
Proof.
  intros Hlen. destruct (toggleTurn_unfold fen Hlen) as [_ F].
  eexists. split; [exact F|].
  unfold other. split; intros H; case_decide; congruence.
Qed.

Lemma toggleTurn_frame_witness :
  ∃ colour,
    fields (toggleTurn "8/8/8/8/8/2k5/2P5/2K5 w - - 0 1")
    = <[1:=colour]> (fields "8/8/8/8/8/2k5/2P5/2K5 w - - 0 1") ∧
    (fields "8/8/8/8/8/2k5/2P5/2K5 w - - 0 1" !! 1 = Some "w" → colour = "b") ∧
    (fields "8/8/8/8/8/2k5/2P5/2K5 w - - 0 1" !! 1 ≠ Some "w" → colour = "w").
Proof.
  apply (toggleTurn_frame "8/8/8/8/8/2k5/2P5/2K5 w - - 0 1"). simpl. lia.
Defined.

End TurnProperties.

(** ** Move history *)

Section HistoryProperties.

Import History.

Lemma slice0_take {A} (a : list A) (e : Z) :
  (0 ≤ e)%Z → slice0 a e = take (Z.to_nat e) a.
Proof. intros H. unfold slice0. destruct (Z.ltb_spec e 0); [lia | reflexivity]. Qed.

Lemma onMove_inRange (s : Nav) (m : Move) :
  inRange s →
  onMove (Some m) s =
  {| moveHistory := take (Z.to_nat (currentMoveIndex s + 1)) (moveHistory s) ++ [m];
     currentMoveIndex := currentMoveIndex s + 1 |}.
Proof.
  unfold inRange, onMove. intros H. f_equal. f_equal.
  destruct (Z.ltb_spec (currentMoveIndex s) (Z.of_nat (length (moveHistory s)) - 1)).
  - apply slice0_take. lia.
  - symmetry. apply take_ge. lia.
Qed.

Lemma step_inRange (s : Nav) (e : event) : inRange s → inRange (step s e).
Proof.
  intros H. destruct e as [[m|]| | |[|]]; unfold step; try assumption.
  - rewrite onMove_inRange by assumption. unfold inRange in *. simpl.
    rewrite length_app, length_take. simpl. lia.
  - unfold undo, inRange in *.
    destruct (Z.geb_spec (currentMoveIndex s) 0); simpl; lia.
  - unfold redo, inRange in *.
    destruct (Z.ltb_spec (currentMoveIndex s) (Z.of_nat (length (moveHistory s)) - 1));
      simpl; lia.
  - unfold inRange. simpl. lia.
Qed.

Lemma run_inRange (events : list event) (s : Nav) :
  inRange s → inRange (fold_left step events s).
Proof.
  revert s. induction events as [|e events IH]; intros s H; simpl; [assumption|].
  apply IH, step_inRange, H.
Qed.

Lemma lastMove_inRange (s : Nav) :
  inRange s →
  lastMove s = Ok (match at_ (moveHistory s) (currentMoveIndex s) with
                   | Some m => Some (from m, to m)
                   | None => None
                   end).
Proof.
  unfold inRange, lastMove, at_. intros H.
  destruct (Z.geb_spec (currentMoveIndex s) 0) as [Hge|Hlt].
  - destruct (Z.ltb_spec (currentMoveIndex s) 0); [lia|].
    destruct (lookup_lt_is_Some_2 (moveHistory s) (Z.to_nat (currentMoveIndex s))
                ltac:(lia)) as [m Hm].
    now rewrite Hm.
  - destruct (Z.ltb_spec (currentMoveIndex s) 0); [reflexivity | lia].
Qed.

(** X17.  Whatever the user does (moves accepted or refused by the rules
    engine, undo, redo, positions loaded or rejected), the move index stays
    between -1 and the last index of the history, and building the board
    configuration never reads a move that is not there. *)
Theorem history_index_in_range (events : list event) :
  inRange (run events) ∧ ∃ highlighted, lastMove (run events) = Ok highlighted.
Proof.
  assert (H : inRange (run events)).
  { apply run_inRange. unfold inRange. simpl. lia. }
  split; [exact H|]. rewrite (lastMove_inRange _ H). eauto.
Qed.

(** X18.  A move the rules engine accepts replaces the moves that had
    been undone: the history becomes the moves up to the index followed by
    the new move, the index points at it, nothing is left to redo, and the
    move highlighted on the board is the new one. *)
Theorem onMove_discards_redo_tail (s : Nav) (m : Move) :
  inRange s →
  let s' := onMove (Some m) s in
  moveHistory s' = take (Z.to_nat (currentMoveIndex s + 1)) (moveHistory s) ++ [m] ∧
  currentMoveIndex s' = (Z.of_nat (length (moveHistory s')) - 1)%Z ∧
  redoDisabled s' = true ∧ redo s' = s' ∧
  lastMove s' = Ok (Some (from m, to m)).
Proof.
  intros H s'. unfold s'. rewrite onMove_inRange by assumption.
  unfold inRange in H. simpl.
  assert (L : length (take (Z.to_nat (currentMoveIndex s + 1)) (moveHistory s) ++ [m])
              = Z.to_nat (currentMoveIndex s + 2)).
  { rewrite length_app, length_take. simpl. lia. }
  split; [reflexivity|]. split; [lia|].
  unfold redoDisabled, redo, lastMove, at_. simpl. rewrite !L.
  destruct (Z.geb_spec (currentMoveIndex s + 1)
              (Z.of_nat (Z.to_nat (currentMoveIndex s + 2)) - 1)); [|lia].
  destruct (Z.ltb_spec (currentMoveIndex s + 1)
              (Z.of_nat (Z.to_nat (currentMoveIndex s + 2)) - 1)); [lia|].
  split; [reflexivity|]. split; [reflexivity|].
  destruct (Z.geb_spec (currentMoveIndex s + 1) 0); [|lia].
  destruct (Z.ltb_spec (currentMoveIndex s + 1) 0); [lia|].
  rewrite lookup_app_r by (rewrite length_take; lia).
  rewrite length_take.
  replace (Z.to_nat (currentMoveIndex s + 1)
           - Z.to_nat (currentMoveIndex s + 1) `min` length (moveHistory s)) with 0 by lia.
  reflexivity.
Qed.

Lemma onMove_discards_redo_tail_witness :
  let e4 := {| from := "e2"; to := "e4"; san := "e4" |} in
  let e5 := {| from := "e7"; to := "e5"; san := "e5" |} in
  let d4 := {| from := "d2"; to := "d4"; san := "d4" |} in
  let s := {| moveHistory := [e4; e5]; currentMoveIndex := -1 |} in
  let s' := onMove (Some d4) s in
  moveHistory s' = take (Z.to_nat (currentMoveIndex s + 1)) (moveHistory s) ++ [d4] ∧
  currentMoveIndex s' = (Z.of_nat (length (moveHistory s')) - 1)%Z ∧
  redoDisabled s' = true ∧ redo s' = s' ∧
  lastMove s' = Ok (Some (from d4, to d4)).
Proof.
  intros e4 e5 d4 s.
  apply (onMove_discards_redo_tail s d4). unfold inRange. simpl. lia.
Defined.

(** X19.  Undo and redo are inverse to each other on the navigation
    state: where undo is enabled, redo after undo gives the state back;
    where redo is enabled, undo after redo does. *)
Theorem undo_redo_inverse (s : Nav) :
  inRange s →
  (undoDisabled s = false → redo (undo s) = s) ∧
  (redoDisabled s = false → undo (redo s) = s).
Proof.
  unfold inRange, undoDisabled, redoDisabled, undo, redo.
  destruct s as [hist idx]. simpl. intros H. split; intros E.
  - apply Z.ltb_ge in E.
    destruct (Z.geb_spec idx 0); [|lia]. simpl.
    destruct (Z.ltb_spec (idx - 1) (Z.of_nat (length hist) - 1)); [|lia].
    f_equal. lia.
  - destruct (Z.geb_spec idx (Z.of_nat (length hist) - 1)); [discriminate|].
    destruct (Z.ltb_spec idx (Z.of_nat (length hist) - 1)); [|lia]. simpl.
    destruct (Z.geb_spec (idx + 1) 0); [|lia].
    f_equal. lia.
Qed.

Lemma undo_redo_inverse_witness :
  let e4 := {| from := "e2"; to := "e4"; san := "e4" |} in
  let e5 := {| from := "e7"; to := "e5"; san := "e5" |} in
  let s := {| moveHistory := [e4; e5]; currentMoveIndex := 0 |} in
  (undoDisabled s = false → redo (undo s) = s) ∧
  (redoDisabled s = false → undo (redo s) = s).
Proof.
  intros e4 e5 s. apply (undo_redo_inverse s). unfold inRange. simpl. lia.
Defined.

(** X20.  A navigation button is disabled exactly when pressing it
    would leave the navigation state as it is. *)
Theorem buttons_disabled_iff_noop (s : Nav) :
  (undoDisabled s = true ↔ undo s = s) ∧
  (redoDisabled s = true ↔ redo s = s).
Proof.
  unfold undoDisabled, redoDisabled, undo, redo.
  destruct s as [hist idx]. simpl. split.
  - destruct (Z.ltb_spec idx 0), (Z.geb_spec idx 0); try lia;
      split; intros E; try reflexivity; try discriminate.
    injection E as E. lia.
  - destruct (Z.geb_spec idx (Z.of_nat (length hist) - 1)),
             (Z.ltb_spec idx (Z.of_nat (length hist) - 1)); try lia;
      split; intros E; try reflexivity; try discriminate.
    injection E as E. lia.
Qed.

End HistoryProperties.

(** ** Move destinations *)

Section DestsProperties.

Import Dests.

(** What the map holds for a list of destinations: no entry for none. *)
Lemma addMove_lookup (dests : gmap string (list string)) (m : History.Move)
      (L : string → list string) :
  (∀ sq, dests !! sq = if decide (L sq = []) then None else Some (L sq)) →
  ∀ sq, addMove dests m !! sq =
        let L' := L sq ++ (if decide (History.from m = sq) then [History.to m] else []) in
        if decide (L' = []) then None else Some L'.
Proof.
  intros H sq. cbv zeta. unfold addMove.
  pose proof (H (History.from m)) as Hm.
  assert (Hl : ∃ l, (if decide (dests !! History.from m = None)
                     then <[History.from m:=[]]> dests else dests)
                    !! History.from m = Some l ∧ l = L (History.from m)).
  { destruct (decide (dests !! History.from m = None)) as [Hnone|Hsome].
    - rewrite lookup_insert_eq. exists []. split; [reflexivity|].
      rewrite Hnone in Hm. case_decide; [congruence | discriminate].
    - destruct (dests !! History.from m) as [l|] eqn:El; [|congruence].
      exists l. split; [reflexivity|]. case_decide; congruence. }
  destruct Hl as (l & -> & ->).
  destruct (decide (History.from m = sq)) as [Heq|Hne].
  - subst sq. rewrite lookup_insert_eq. clear Hm.
    destruct (decide (L (History.from m) ++ [History.to m] = [])) as [E|E];
      [|reflexivity].
    apply app_eq_nil in E as [_ E]. discriminate.
  - rewrite lookup_insert_ne by assumption.
    rewrite app_nil_r.
    destruct (decide (dests !! History.from m = None)).
    + rewrite lookup_insert_ne by assumption. apply H.
    + apply H.
Qed.

Lemma fold_addMove_lookup (moves : list History.Move)
      (dests : gmap string (list string)) (L : string → list string) :
  (∀ sq, dests !! sq = if decide (L sq = []) then None else Some (L sq)) →
  ∀ sq, fold_left addMove moves dests !! sq =
        if decide (L sq ++ destsFrom sq moves = []) then None
        else Some (L sq ++ destsFrom sq moves).
Proof.
  revert dests L. induction moves as [|m moves IH]; intros dests L H sq.
  - simpl. unfold destsFrom. simpl. rewrite app_nil_r. apply H.
  - simpl fold_left.
    rewrite (IH (addMove dests m)
               (fun sq => L sq ++ (if decide (History.from m = sq)
                                   then [History.to m] else [])))
      by (intros sq'; apply (addMove_lookup dests m L H)).
    unfold destsFrom. rewrite filter_cons.
    destruct (decide (History.from m = sq)); simpl;
      rewrite <- ?app_assoc; simpl; reflexivity.
Qed.

(** X21.  The destination map holds, for every square from which some
    move starts, the destinations of exactly the moves that start there, in
    the order the rules engine lists them, and has no entry for any other
    square. *)
Theorem getMoveDests_lookup (moves : list History.Move) (sq : string) :
  getMoveDests moves !! sq =
  if decide (destsFrom sq moves = []) then None else Some (destsFrom sq moves).
Proof.
  unfold getMoveDests.
  apply (fold_addMove_lookup moves ∅ (fun _ => [])).
  intros sq'. rewrite lookup_empty. reflexivity.
Qed.

End DestsProperties.

(** ** The engine worker *)

Section WorkerProperties.

Import Worker.

Lemma commandsPosted_Cmd (l : list string) : commandsPosted (Cmd <$> l) = l.
Proof.
  unfold commandsPosted.
  induction l as [|x l IH]; simpl; [reflexivity | f_equal; exact IH].
Qed.

Lemma commandsSent_snoc events e :
  commandsSent (events ++ [e]) =
  commandsSent events ++
  match e with
  | FromMain type command _ => if decide (type = "command") then [command] else []
  | FromEngine _ => []
  end.
Proof.
  unfold commandsSent. rewrite omap_app. f_equal.
  destruct e as [type command created|line]; simpl; [|reflexivity].
  now case_decide.
Qed.

Lemma commandsPosted_app (a b : list post) :
  commandsPosted (a ++ b) = commandsPosted a ++ commandsPosted b.
Proof. apply omap_app. Qed.

Lemma step_settled events s e :
  settled events s → settled (events ++ [e]) (step s e).
Proof.
  unfold settled. destruct s as [sf q rd te tm]. simpl. intros [Hready Hcmds].
  rewrite commandsSent_snoc, <- Hcmds.
  destruct e as [type command created|line]; simpl.
  - unfold onMessage, initStockfish. simpl.
    destruct (decide (type = "init")) as [->|Hinit].
    + rewrite decide_False by discriminate.
      destruct created; simpl; rewrite ?commandsPosted_app, !app_nil_r.
      * split; [|reflexivity]. intros R. destruct (Hready R) as [_ Hq]. now split.
      * split; [exact Hready | reflexivity].
    + destruct (decide (type = "command")) as [->|Hcmd].
      * rewrite decide_False by discriminate.
        destruct rd, sf; simpl; rewrite ?commandsPosted_app; simpl.
        -- destruct (Hready eq_refl) as [_ ->].
           rewrite !app_nil_r. split; [now split | reflexivity].
        -- destruct (Hready eq_refl) as [Hs _]. discriminate.
        -- rewrite app_assoc. split; [discriminate | reflexivity].
        -- rewrite app_assoc. split; [discriminate | reflexivity].
      * destruct (decide (type = "stop")) as [->|Hstop].
        -- destruct sf; simpl; rewrite ?commandsPosted_app; simpl;
             rewrite !app_nil_r; split; first [assumption | reflexivity].
        -- rewrite app_nil_r. split; [assumption | reflexivity].
  - rewrite app_nil_r.
    destruct sf; simpl; [|split; [assumption | reflexivity]].
    unfold onEngineLine. simpl. case_decide; simpl.
    + rewrite commandsPosted_app, commandsPosted_Cmd, app_nil_r.
      split; [now split | reflexivity].
    + split; [assumption | reflexivity].
Qed.

Lemma run_settled (events : list event) : settled events (run events).
Proof.
  unfold run. induction events as [|e events IH] using rev_ind.
  - split; [discriminate | reflexivity].
  - rewrite fold_left_app. simpl. now apply step_settled.
Qed.

(** X22.  No command of the main thread is lost, duplicated or
    reordered: at any moment the commands posted to the engine followed by
    the commands still queued are the commands sent so far, in order; and
    once the engine has reported [uciok] the queue is empty. *)
Theorem worker_commands_in_order (events : list event) :
  commandsPosted (toEngine (run events)) ++ messageQueue (run events)
  = commandsSent events ∧
  (isReady (run events) = true →
   stockfish (run events) = true ∧ messageQueue (run events) = []).
Proof.
  destruct (run_settled events) as [H1 H2]. split; assumption.
Qed.

Lemma step_not_ready s e :
  (∀ line, e = FromEngine line → line ≠ "uciok") →
  isReady s = false ∧ commandsPosted (toEngine s) = [] →
  isReady (step s e) = false ∧ commandsPosted (toEngine (step s e)) = [].
Proof.
  destruct s as [sf q rd te tm]. simpl. intros He [-> P].
  destruct e as [type command created|line]; simpl.
  - unfold onMessage, initStockfish. simpl.
    destruct (decide (type = "init")); [destruct created|]; simpl;
      rewrite ?commandsPosted_app, ?P; auto.
    destruct (decide (type = "command")), (decide (type = "stop")), sf; simpl;
      rewrite ?commandsPosted_app, ?P; auto.
  - destruct sf; simpl; [|auto].
    unfold onEngineLine. simpl. case_decide as E; simpl; [|auto].
    exfalso. exact (He line eq_refl E).
Qed.

(** X23.  Until the engine instance has reported [uciok], no command of
    the main thread reaches it: the worker posts nothing but its own [uci]
    and [stop]. *)
Theorem worker_holds_commands_back (events : list event) :
  Forall (fun e => ∀ line, e = FromEngine line → line ≠ "uciok") events →
  isReady (run events) = false ∧
  commandsPosted (toEngine (run events)) = [] ∧
  messageQueue (run events) = commandsSent events.
Proof.
  intros H.
  assert (G : isReady (run events) = false ∧ commandsPosted (toEngine (run events)) = []).
  { unfold run. induction events as [|e events IH] using rev_ind.
    - split; reflexivity.
    - apply Forall_app in H as [H1 H2]. rewrite fold_left_app. simpl.
      apply step_not_ready; [|now apply IH].
      now inversion H2. }
  destruct G as [R P]. split; [exact R|]. split; [exact P|].
  destruct (run_settled events) as [_ E]. now rewrite P in E.
Qed.

Lemma worker_holds_commands_back_witness :
  let events := [FromMain "command" "isready" false;
                 FromMain "init" "" true;
                 FromMain "command" "go depth 15" false;
                 FromMain "stop" "" false;
                 FromEngine "id name Stockfish"] in
  isReady (run events) = false ∧
  commandsPosted (toEngine (run events)) = [] ∧
  messageQueue (run events) = commandsSent events.
Proof.
  intros events.
  apply (worker_holds_commands_back events).
  repeat constructor; intros line E; try discriminate.
  injection E as <-. discriminate.
Defined.

End WorkerProperties.

(** ** The evaluation bar *)

Section EvalBarProperties.

Import EvalBar.

Variable numberToString : Z → string.
Variable toFixed2 : Q → string.

Lemma scorePercent (score : Z) :
  (50 + (inject_Z (Z.max (-1000) (Z.min 1000 score)) / 1000) * 50
   == inject_Z (Z.max (-1000) (Z.min 1000 score) + 1000) / 20)%Q.
Proof.
  generalize (Z.max (-1000) (Z.min 1000 score)). intros c.
  unfold Qeq, Qdiv, Qinv, Qmult, Qplus, inject_Z. simpl. lia.
Qed.

(** X24.  The width of the evaluation bar is always between 0 and 100
    percent.  A mate score gives a full bar when positive and an empty one
    otherwise, mate 0 (what is shown on checkmate) included.  A centipawn
    score gives exactly 50 at 0, exactly 100 from +1000 on and exactly 0
    from -1000 down, and a greater score never gives a narrower bar. *)
Theorem evalPercent_range (r : result) :
  (0 <= evalPercent (updateEvalDisplay numberToString toFixed2 r) <= 100)%Q ∧
  (∀ m, mate r = Some m →
        evalPercent (updateEvalDisplay numberToString toFixed2 r)
        = if (0 <? m)%Z then 100%Q else 0%Q) ∧
  (∀ s, mate r = None → score r = Some s →
        (s = 0%Z → (evalPercent (updateEvalDisplay numberToString toFixed2 r) == 50)%Q) ∧
        ((1000 ≤ s)%Z →
         (evalPercent (updateEvalDisplay numberToString toFixed2 r) == 100)%Q) ∧
        ((s ≤ -1000)%Z →
         (evalPercent (updateEvalDisplay numberToString toFixed2 r) == 0)%Q) ∧
        ∀ r' s', mate r' = None → score r' = Some s' → (s ≤ s')%Z →
          (evalPercent (updateEvalDisplay numberToString toFixed2 r)
           <= evalPercent (updateEvalDisplay numberToString toFixed2 r'))%Q).
Proof.
  assert (B : ∀ c : Z, (-1000 ≤ c ≤ 1000)%Z →
              (0 <= inject_Z (c + 1000) / 20 <= 100)%Q).
  { intros c Hc. unfold Qle, Qdiv, Qinv, Qmult, inject_Z. simpl. lia. }
  assert (M : ∀ c c' : Z, (c ≤ c')%Z →
              (inject_Z (c + 1000) / 20 <= inject_Z (c' + 1000) / 20)%Q).
  { intros c c' Hc. unfold Qle, Qdiv, Qinv, Qmult, inject_Z. simpl. lia. }
  unfold updateEvalDisplay. destruct r as [sc mt]. simpl.
  split; [|split].
  - destruct mt as [m|]; simpl.
    + destruct (m >? 0)%Z; split; discriminate.
    + destruct sc as [s|]; simpl; [|split; discriminate].
      rewrite scorePercent. apply B. lia.
  - intros m [= ->]. simpl. rewrite Z.gtb_ltb. reflexivity.
  - intros s -> [= ->]. simpl. rewrite scorePercent.
    split; [|split; [|split]].
    + intros ->. reflexivity.
    + intros Hs. rewrite Z.min_l, Z.max_r by lia. reflexivity.
    + intros Hs. rewrite Z.min_r, Z.max_l by lia. reflexivity.
    + intros [sc' mt'] s'. simpl. intros -> [= ->] Hle. simpl.
      rewrite !scorePercent. apply M. lia.
Qed.

End EvalBarProperties.

(** ** More on the worker, the upload and the expanded ranks *)

Section FurtherProperties.

Import Worker.

Lemma step_forwards s e :
  stockfish s = true →
  stockfish (step s e) = true ∧
  linesForwarded (toMain (step s e))
  = linesForwarded (toMain s) ++
    match e with FromEngine line => [line] | FromMain _ _ _ => [] end.
Proof.
  destruct s as [sf q rd te tm]. simpl. intros ->.
  destruct e as [type command created|line]; simpl.
  - unfold onMessage, initStockfish. simpl. rewrite app_nil_r.
    destruct (decide (type = "init")); [destruct created|]; simpl.
    + auto.
    + unfold linesForwarded. rewrite omap_app. simpl. now rewrite app_nil_r.
    + destruct (decide (type = "command")), (decide (type = "stop")), rd; simpl; auto.
  - unfold onEngineLine. simpl.
    case_decide; simpl; unfold linesForwarded; rewrite omap_app; auto.
Qed.

(** X25.  Once an engine instance has been created, every line it puts
    out is forwarded to the main thread, in order and once, whatever
    messages arrive in between. *)
Theorem worker_forwards_output (command : string) (events : list event) :
  linesForwarded (toMain (run (FromMain "init" command true :: events)))
  = engineLines events.
Proof.
  pose (s0 := {| stockfish := true; messageQueue := []; isReady := false;
                 toEngine := [Uci]; toMain := [] |}).
  assert (run (FromMain "init" command true :: events) = fold_left step events s0)
    as -> by reflexivity.
  assert (G : ∀ evs s, stockfish s = true →
              linesForwarded (toMain (fold_left step evs s))
              = linesForwarded (toMain s) ++ engineLines evs).
  { induction evs as [|e evs IH]; intros s Hs; simpl.
    - now rewrite app_nil_r.
    - destruct (step_forwards s e Hs) as [Hs' L].
      rewrite (IH _ Hs'), L, <- app_assoc. f_equal.
      destruct e; reflexivity. }
  rewrite (G events s0 eq_refl). reflexivity.
Qed.

(** X26.  The upload reaches [loadPosition], that is, hands a string
    to the rules engine (which may still reject it), exactly when the
    recogniser's string is not empty and its placement has at least eight
    ranks; the string handed on has at least six fields.  In every other
    case the upload ends with an error before anything is handed on. *)
Theorem handleImageUpload_outcome recognised :
  match handleImageUpload recognised with
  | Ok fen =>
      6 ≤ length (fields fen) ∧
      ∃ raw, recognised = Some raw ∧ raw ≠ "" ∧
             8 ≤ length (split "/" (placementOf raw))
  | Throw _ =>
      recognised = None ∨ recognised = Some "" ∨
      ∃ raw, recognised = Some raw ∧ length (split "/" (placementOf raw)) < 8
  end.
Proof.
  unfold handleImageUpload.
  pose proof (handler_cases recognised) as H.
  destruct (handler recognised) as [fen| |e].
  - destruct H as (raw & -> & Hraw & H8 & Hfen & _).
    destruct (decide (fen = "")); [contradiction|].
    split; [apply complete_fields_length|]. eauto.
  - destruct H as [->| ->]; auto.
  - destruct H as (_ & raw & -> & _ & Hlt). right. right. eauto.
Qed.

Lemma length_append_string (a b : string) :
  String.length (a +:+ b) = String.length a + String.length b.
Proof.
  induction a as [|c a IH]; [reflexivity|].
  rewrite append_cons. simpl. now rewrite IH.
Qed.

Lemma length_repeat_string c n : String.length (JS.repeat c n) = n.
Proof. induction n as [|n IH]; simpl; [reflexivity | now rewrite IH]. Qed.

Lemma expand_length r : String.length (expand r) = length (squares r).
Proof.
  induction r as [|c r IH]; [reflexivity|]. simpl.
  destruct (isDigit c).
  - rewrite length_append_string, length_repeat_string, length_app,
      length_replicate, IH. reflexivity.
  - simpl. now rewrite IH.
Qed.

(** X27.  An expanded rank has one character per square: the piece
    letter, or 1 for an empty square.  On a well-formed rank these are
    eight characters, so the squares a, e and h that castling inference
    reads are always there. *)
Theorem expand_one_char_per_square r :
  wellFormedRank r = true →
  String.length (expand r) = 8 ∧
  ∀ file, file < 8 →
    ∃ c, charAt (expand r) file = Some c ∧
         (squares r !! file = Some (Some c) ∨
          (squares r !! file = Some None ∧ c = "1"%char)).
Proof.
  intros Hwf. pose proof (wellFormedRank_squares r Hwf) as H8.
  split; [now rewrite expand_length|].
  intros file Hf. rewrite charAt_expand.
  destruct (squares r !! file) as [[c|]|] eqn:E; eauto.
  apply lookup_ge_None_1 in E. unfold square in *. lia.
Qed.

Lemma expand_one_char_per_square_witness :
  String.length (expand "r3k2r") = 8 ∧
  ∀ file, file < 8 →
    ∃ c, charAt (expand "r3k2r") file = Some c ∧
         (squares "r3k2r" !! file = Some (Some c) ∨
          (squares "r3k2r" !! file = Some None ∧ c = "1"%char)).
Proof. apply (expand_one_char_per_square "r3k2r"). reflexivity. Defined.

End FurtherProperties.
